(** * mp/conwebsock.py: the WebREPL websocket connection of mpfshell

    A shallow embedding of [ConWebsock]: the deque of received text chunks,
    the two deadline-bounded readers ([read] and [wait_for_string]), the
    login exchange of [authenticate] and [close].

    Modelling decisions.
    - A Python [str] is a list of code points; [bytes] is a list of bytes.
    - [time.time()] readings and [self.timeout] are Python floats, that is
      IEEE 754 binary64 numbers: the kernel's primitive [float], whose
      subtraction and comparison round as Python's do.
    - The websocket thread and the clock are an environment script: a list
      of observations, one per call of [time.time()], each carrying the
      clock reading and the messages that [on_message] delivered since the
      previous observation.  A loop that needs an observation the script
      does not have is [Starved]; it is not a result of the program.
    - [Condition.wait] only releases the lock until a wake-up or until the
      remaining time has passed; what happened meanwhile is read from the
      next observation. *)

From Stdlib Require Import List ZArith NArith Bool Lia Floats.
From Stdlib Require Strings.String.
From Stdlib Require Import Strings.Ascii Strings.Byte.
Import ListNotations String.StringSyntax.

Delimit Scope string_scope with string.
Bind Scope string_scope with String.string.

(** ** Python text and bytes *)

Module Py.

(** A code point of a Python [str]. *)
Definition char := N.
Definition str := list char.
Definition bytes := list byte.

(** A string literal of the source, read as code points; the literals of
    this file are ASCII. *)
Definition lit (s : String.string) : str :=
  map N_of_ascii (String.list_ascii_of_string s).

(** A bytes literal [b"..."]. *)
Definition blit (s : String.string) : bytes := String.list_byte_of_string s.

(** [''.join(data)] *)
Definition join (data : list str) : str := concat data.

Definition octet (n : N) : byte :=
  match Byte.of_N n with
  | Some b => b
  | None => x00
  end.

Definition continuation (n : N) : byte :=
  octet (N.lor 128 (N.land n 63)).

(** Code points that UTF-8 can encode: the scalar values, that is all code
    points up to U+10FFFF except the surrogates U+D800..U+DFFF. *)
Definition scalar (c : char) : bool :=
  (c <? 55296)%N || ((57343 <? c)%N && (c <? 1114112)%N).

(** The UTF-8 encoding of one code point; [None] is [UnicodeEncodeError]. *)
Definition utf8_char (c : char) : option bytes :=
  if (c <? 128)%N then Some [octet c]
  else if (c <? 2048)%N then
    Some [octet (N.lor 192 (N.shiftr c 6)); continuation c]
  else if (c <? 65536)%N then
    if scalar c then
      Some [octet (N.lor 224 (N.shiftr c 12));
            continuation (N.shiftr c 6); continuation c]
    else None
  else if (c <? 1114112)%N then
    Some [octet (N.lor 240 (N.shiftr c 18)); continuation (N.shiftr c 12);
          continuation (N.shiftr c 6); continuation c]
  else None.

(** [s.encode("utf-8")] *)
Fixpoint encode_utf8 (s : str) : option bytes :=
  match s with
  | [] => Some []
  | c :: s' =>
      match utf8_char c, encode_utf8 s' with
      | Some b, Some bs => Some (b ++ bs)
      | _, _ => None
      end
  end.

Definition text (s : str) : Prop := forallb scalar s = true.

(** [s] with the prefix [p] taken off, when [s] starts with [p]. *)
Fixpoint strip_prefix (p s : str) : option str :=
  match p, s with
  | [], _ => Some s
  | _ :: _, [] => None
  | a :: p', b :: s' => if (a =? b)%N then strip_prefix p' s' else None
  end.

(** The leftmost occurrence of [sep] in [s]: what is before it and what is
    after it. *)
Fixpoint find (sep s : str) : option (str * str) :=
  match strip_prefix sep s with
  | Some rest => Some ([], rest)
  | None =>
      match s with
      | [] => None
      | c :: s' =>
          match find sep s' with
          | Some (before, after) => Some (c :: before, after)
          | None => None
          end
      end
  end.

(** [sep in s] *)
Definition contains (sep s : str) : bool :=
  match find sep s with
  | Some _ => true
  | None => false
  end.

End Py.

Import Py.

(** ** Exceptions and outcomes *)

Inductive exn : Type :=
| ConError (msg : str)
| ValueError (msg : str)
| UnicodeEncodeError
| TransportError (msg : str).

Inductive outcome (A : Type) : Type :=
| Return (a : A)
| Raise (e : exn)
| Starved.

Arguments Return {A} a.
Arguments Raise {A} e.
Arguments Starved {A}.

(** What a Python call hands back to its caller. *)
Inductive pyval : Type :=
| PyNone
| PyStr (s : str)
| PyBytes (b : bytes)
| PyInt (z : Z).

(** [s.split(sep, 1)] *)
Definition split1 (sep s : str) : outcome (list str) :=
  match sep with
  | [] => Raise (ValueError (lit "empty separator"))
  | _ :: _ =>
      match find sep s with
      | Some (before, after) => Return [before; after]
      | None => Return [s]
      end
  end.

(** ** The connection object and its environment *)

(** What the object does to the outside: text handed to [ws.send], the
    call of [ws.close], and [fifo_has_data.notify_all()]. *)
Inductive event : Type :=
| WsSend (data : str)
| WsClose
| NotifyAll.

(** The websocket library is not part of this file's source: whether its
    [send] and [close] raise is a parameter of the object. *)
Record WebSocketApp : Type := {
  send_raises : str -> option exn;
  close_raises : option exn
}.

Record ConWebsock : Type := {
  ip : str;
  password : str;
  fifo : list str;
  timeout : float;
  ws : WebSocketApp;
  log : list event
}.

Definition set_fifo (q : list str) (self : ConWebsock) : ConWebsock :=
  {| ip := ip self; password := password self; fifo := q;
     timeout := timeout self; ws := ws self; log := log self |}.

Definition set_timeout (t : float) (self : ConWebsock) : ConWebsock :=
  {| ip := ip self; password := password self; fifo := fifo self;
     timeout := t; ws := ws self; log := log self |}.

Definition emit (e : event) (self : ConWebsock) : ConWebsock :=
  {| ip := ip self; password := password self; fifo := fifo self;
     timeout := timeout self; ws := ws self; log := log self ++ [e] |}.

(** One reading of [time.time()], with the messages the websocket thread
    delivered since the previous reading. *)
Record obs : Type := {
  now : float;
  arrived : list str
}.

(** [on_message]: append to the deque, wake the waiters. *)
Definition on_message (message : str) (self : ConWebsock) : ConWebsock :=
  emit NotifyAll (set_fifo (fifo self ++ [message]) self).

(** [on_error] and [on_close] only wake the waiters. *)
Definition on_error (self : ConWebsock) : ConWebsock := emit NotifyAll self.
Definition on_close (self : ConWebsock) : ConWebsock := emit NotifyAll self.

(** The websocket thread running [on_message] on each message in turn. *)
Definition deliver (messages : list str) (self : ConWebsock) : ConWebsock :=
  fold_left (fun s m => on_message m s) messages self.

(** A method call: it runs on the object and on what is left of the
    environment script. *)
Definition run (A : Type) : Type := (outcome A * ConWebsock * list obs)%type.

Definition result {A} (r : run A) : outcome A := fst (fst r).
Definition after {A} (r : run A) : ConWebsock := snd (fst r).
Definition unread {A} (r : run A) : list obs := snd r.

Definition method (A : Type) : Type := ConWebsock -> list obs -> run A.

Definition ret {A} (a : A) : method A := fun self env => (Return a, self, env).

Definition bind {A B} (m : method A) (k : A -> method B) : method B :=
  fun self env =>
    match m self env with
    | (Return a, self', env') => k a self' env'
    | (Raise e, self', env') => (Raise e, self', env')
    | (Starved, self', env') => (Starved, self', env')
    end.

Notation "x <- m ;; k" := (bind m (fun x => k))
  (at level 61, m at next level, right associativity).
Notation "m ;;; k" := (bind m (fun _ => k))
  (at level 61, right associativity).

(** [self.ws.send(data)] *)
Definition ws_send (data : str) : method unit :=
  fun self env =>
    match send_raises (ws self) data with
    | Some e => (Raise e, emit (WsSend data) self, env)
    | None => (Return tt, emit (WsSend data) self, env)
    end.

(** [self.timeout = t] *)
Definition assign_timeout (t : float) : method unit :=
  fun self env => (Return tt, set_timeout t self, env).

(** ** wait_for_string *)

(** ["Timed out waiting for '%s'" % string] *)
Definition timed_out (string : str) : str :=
  lit "Timed out waiting for '" ++ string ++ lit "'".

(** The [while True] loop of [wait_for_string]; one observation per turn. *)
Fixpoint wait_for_string_loop (string : str) (tstart : float) (data : str)
    (self : ConWebsock) (env : list obs) {struct env} : run pyval :=
  match env with
  | [] => (Starved, self, [])
  | o :: env' =>
      let self := deliver (arrived o) self in
      let elapsed_time := (now o - tstart)%float in
      let remaining_time := (timeout self - elapsed_time)%float in
      if (remaining_time <? 0)%float then
        (Raise (ConError (timed_out string)), self, env')
      else
        match fifo self with
        | chunk :: q =>
            let self := set_fifo q self in
            let data := data ++ chunk in
            if contains string data then
              match split1 string data with
              | Return [_; rest] =>
                  (Return PyNone, set_fifo (rest :: fifo self) self, env')
              | Return _ =>
                  (Raise (ValueError (lit "not enough values to unpack")),
                   self, env')
              | Raise e => (Raise e, self, env')
              | Starved => (Starved, self, env')
              end
            else wait_for_string_loop string tstart data self env'
        | [] => wait_for_string_loop string tstart data self env'
        end
  end.

Definition wait_for_string (string : str) : method pyval :=
  fun self env =>
    match env with
    | [] => (Starved, self, [])
    | o :: env' =>
        wait_for_string_loop string (now o) [] (deliver (arrived o) self) env'
    end.

(** ** read *)

(** The [while len(data) < size] loop of [read]. *)
Fixpoint read_loop (size : Z) (tstart : float) (data : list str)
    (self : ConWebsock) (env : list obs) {struct env} : run (list str) :=
  if (Z.of_nat (length data) <? size)%Z then
    match env with
    | [] => (Starved, self, [])
    | o :: env' =>
        let self := deliver (arrived o) self in
        let elapsed_time := (now o - tstart)%float in
        let remaining_time := (timeout self - elapsed_time)%float in
        if (remaining_time <? 0)%float then (Return data, self, env')
        else
          match fifo self with
          | chunk :: q =>
              read_loop size tstart (data ++ [chunk]) (set_fifo q self) env'
          | [] => read_loop size tstart data self env'
          end
    end
  else (Return data, self, env).

(** [s.encode("utf-8")] as a step of a method. *)
Definition encode (s : str) : outcome bytes :=
  match encode_utf8 s with
  | Some b => Return b
  | None => Raise UnicodeEncodeError
  end.

Definition read (size : Z) : method bytes :=
  fun self env =>
    match env with
    | [] => (Starved, self, [])
    | o :: env' =>
        match read_loop size (now o) [] (deliver (arrived o) self) env' with
        | (Return data, self', env'') => (encode (join data), self', env'')
        | (Raise e, self', env'') => (Raise e, self', env'')
        | (Starved, self', env'') => (Starved, self', env'')
        end
    end.

(** ** The rest of the interface *)

(** [self.password] *)
Definition get_password : method str :=
  fun self env => (Return (password self), self, env).

(** The carriage return of ["\r"]. *)
Definition CR : str := [13%N].

Definition authenticate : method pyval :=
  assign_timeout 5 ;;;
  wait_for_string (lit "Password: ") ;;;
  pw <- get_password ;;
  ws_send (pw ++ CR) ;;;
  wait_for_string (lit "WebREPL connected") ;;;
  assign_timeout 1 ;;;
  ret PyNone.

(** [__init__]: an empty deque, the websocket thread started, the login. *)
Definition init (ip password : str) (ws : WebSocketApp) (env : list obs)
    : run pyval :=
  authenticate
    {| ip := ip; password := password; fifo := []; timeout := 0;
       ws := ws; log := [] |} env.

(** [close]: [try: self.ws.close() finally: notify_all()]. *)
Definition close (self : ConWebsock) : outcome unit * ConWebsock :=
  let self := emit WsClose self in
  let r := match close_raises (ws self) with
           | Some e => Raise e
           | None => Return tt
           end in
  (r, emit NotifyAll self).

Definition write (data : str) : method Z :=
  ws_send data ;;; ret (Z.of_nat (length data)).

Definition inWaiting (self : ConWebsock) : Z := Z.of_nat (length (fifo self)).

Definition survives_soft_reset (self : ConWebsock) : bool := false.

(** ** The vocabulary of the statements

    These are not functions of the source: they name, for a stretch of the
    environment script, what the statements below talk about. *)

(** The deadline test that both loops make at an observation:
    [self.timeout - (time.time() - tstart) < 0], computed in binary64 as
    the source computes it.  "Past the deadline" below always means that
    this test holds. *)
Definition expired (timeout tstart : float) (o : obs) : bool :=
  (timeout - (now o - tstart) <? 0)%float.

(** Every chunk a stretch of the script delivers, in arrival order. *)
Definition arrivals (os : list obs) : list str := flat_map arrived os.

(** The deque under a reader that, at each observation, takes the front
    chunk when there is one: the chunks taken in order, and the deque left. *)
Fixpoint drain (q : list str) (os : list obs) : list str * list str :=
  match os with
  | [] => ([], q)
  | o :: os' =>
      match q ++ arrived o with
      | [] => drain [] os'
      | chunk :: q' => (chunk :: fst (drain q' os'), snd (drain q' os'))
      end
  end.

(** The buffers such a reader has after each chunk it takes, when it
    appends the chunks to [data]: one buffer per chunk taken. *)
Fixpoint examined (data : str) (q : list str) (os : list obs) : list str :=
  match os with
  | [] => []
  | o :: os' =>
      match q ++ arrived o with
      | [] => examined data [] os'
      | chunk :: q' => (data ++ chunk) :: examined (data ++ chunk) q' os'
      end
  end.

(** A transport whose [send] and [close] never raise. *)
Definition quiet : WebSocketApp :=
  {| send_raises := fun _ => None; close_raises := None |}.

(** An observation with no arrival. *)
Definition tick (t : float) : obs := {| now := t; arrived := [] |}.

(** An object as [__init__] makes it, with the deque and the timeout
    given. *)
Definition connection (q : list str) (t : float) : ConWebsock :=
  {| ip := lit "192.168.4.1"; password := lit "secret"; fifo := q;
     timeout := t; ws := quiet; log := [] |}.

(** The texts handed to [ws.send], in order. *)
Definition sent (self : ConWebsock) : list str :=
  flat_map (fun e => match e with WsSend data => [data] | _ => [] end)
    (log self).

(** What the reader loops leave alone: the credentials, the transport and
    what was sent through it. *)
Definition same_transport (self self' : ConWebsock) : Prop :=
  ip self' = ip self /\ password self' = password self /\
  ws self' = ws self /\ sent self' = sent self.

(** Two objects that a reader cannot tell apart: the same deque and the
    same timeout. *)
Definition same_queue (self self' : ConWebsock) : Prop :=
  fifo self' = fifo self /\ timeout self' = timeout self.

(** [__del__] is [close]. *)
Definition del (self : ConWebsock) : outcome unit * ConWebsock := close self.

(** [reads sizes]: the calls [read(size)] for each size in turn, with the
    byte strings they return. *)
Fixpoint reads (sizes : list Z) : method (list bytes) :=
  match sizes with
  | [] => ret []
  | size :: sizes' =>
      b <- read size ;;
      bs <- reads sizes' ;;
      ret (b :: bs)
  end.

(** * Properties *)

(** ** Text: substring search *)

Section Substrings.

Lemma strip_prefix_app (p s r : str) :
  strip_prefix p s = Some r <-> s = p ++ r.
Proof.
  revert s; induction p as [|a p IH]; intros s; simpl.
  - split; [intros [= ->] | intros ->]; reflexivity.
  - destruct s as [|b s]; [split; discriminate|].
    destruct (N.eqb_spec a b) as [->|Hne].
    + rewrite IH; split; [intros -> | intros [= ->]]; reflexivity.
    + split; [discriminate | intros [= E _]; congruence].
Qed.

Lemma find_splits (sep s before rest : str) :
  find sep s = Some (before, rest) -> s = before ++ sep ++ rest.
Proof.
  revert before rest; induction s as [|c s IH]; intros before rest; simpl.
  - destruct (strip_prefix sep []) eqn:E; [|discriminate].
    intros [= <- <-]; apply strip_prefix_app in E; exact E.
  - destruct (strip_prefix sep (c :: s)) eqn:E.
    + intros [= <- <-]; apply strip_prefix_app in E; exact E.
    + destruct (find sep s) as [[b a]|]; [|discriminate].
      intros [= <- <-]; simpl; f_equal; apply IH; reflexivity.
Qed.

Lemma find_leftmost (sep s before rest : str) :
  find sep s = Some (before, rest) ->
  forall b a, s = b ++ sep ++ a -> (length before <= length b)%nat.
Proof.
  revert before rest; induction s as [|c s IH]; intros before rest; simpl.
  - destruct (strip_prefix sep []) eqn:E; [|discriminate].
    intros [= <- <-] b a _; simpl; lia.
  - destruct (strip_prefix sep (c :: s)) eqn:E.
    + intros [= <- <-] b a _; simpl; lia.
    + destruct (find sep s) as [[b0 a0]|] eqn:F; [|discriminate].
      intros [= <- <-] b a Hs.
      destruct b as [|c' b].
      * simpl in Hs; apply strip_prefix_app in Hs; congruence.
      * injection Hs as -> Hs; simpl.
        specialize (IH _ _ eq_refl _ _ Hs); lia.
Qed.

Lemma find_none (sep s : str) :
  find sep s = None -> forall b a, s <> b ++ sep ++ a.
Proof.
  induction s as [|c s IH]; simpl.
  - destruct (strip_prefix sep []) eqn:E; [discriminate|].
    intros _ [|c b] a Hs; [|discriminate].
    simpl in Hs; apply strip_prefix_app in Hs; congruence.
  - destruct (strip_prefix sep (c :: s)) eqn:E; [discriminate|].
    destruct (find sep s) as [[b0 a0]|] eqn:F; [discriminate|].
    intros _ [|c' b] a Hs.
    + simpl in Hs; apply strip_prefix_app in Hs; congruence.
    + injection Hs as -> Hs; exact (IH eq_refl _ _ Hs).
Qed.

Lemma find_complete (sep b a : str) :
  exists before rest, find sep (b ++ sep ++ a) = Some (before, rest).
Proof.
  destruct (find sep (b ++ sep ++ a)) as [[x y]|] eqn:F.
  - exists x, y; reflexivity.
  - exfalso; exact (find_none _ _ F b a eq_refl).
Qed.

(** [sep in s] holds exactly when [s] has [sep] somewhere inside. *)
Lemma contains_substring (sep s : str) :
  contains sep s = true <-> exists b a, s = b ++ sep ++ a.
Proof.
  unfold contains; split.
  - destruct (find sep s) as [[b a]|] eqn:F; [|discriminate].
    intros _; exists b, a; exact (find_splits _ _ _ _ F).
  - intros (b & a & ->).
    destruct (find_complete sep b a) as (x & y & ->); reflexivity.
Qed.

Lemma contains_grows (sep s t : str) :
  contains sep s = true -> contains sep (s ++ t) = true.
Proof.
  rewrite !contains_substring; intros (b & a & ->).
  exists b, (a ++ t); rewrite <- !app_assoc; reflexivity.
Qed.

(** What [split] gives where [in] said yes. *)
Lemma split1_found (sep s : str) :
  contains sep s = true ->
  (sep = [] /\ split1 sep s = Raise (ValueError (lit "empty separator")))
  \/
  (sep <> [] /\
   exists before rest,
     find sep s = Some (before, rest) /\ split1 sep s = Return [before; rest]).
Proof.
  unfold contains, split1; destruct sep as [|a m]; [left; auto|].
  destruct (find (a :: m) s) as [[before rest]|]; [|discriminate].
  intros _; right; split; [discriminate|].
  exists before, rest; auto.
Qed.

End Substrings.

(** ** Text: UTF-8 *)

Section Utf8.

Lemma encode_utf8_app (s t : str) :
  encode_utf8 (s ++ t) =
  match encode_utf8 s, encode_utf8 t with
  | Some a, Some b => Some (a ++ b)
  | _, _ => None
  end.
Proof.
  induction s as [|c s IH]; simpl.
  - destruct (encode_utf8 t); reflexivity.
  - rewrite IH; destruct (utf8_char c), (encode_utf8 s), (encode_utf8 t);
      try reflexivity.
    rewrite app_assoc; reflexivity.
Qed.

Lemma utf8_char_scalar (c : char) :
  scalar c = true -> exists b, utf8_char c = Some b.
Proof.
  unfold utf8_char; intros Hc.
  destruct (c <? 128)%N; [eauto|].
  destruct (c <? 2048)%N; [eauto|].
  destruct (c <? 65536)%N; [rewrite Hc; eauto|].
  destruct (c <? 1114112)%N eqn:E; [eauto|].
  unfold scalar in Hc; rewrite E, andb_false_r, orb_false_r in Hc.
  apply N.ltb_lt in Hc; apply N.ltb_ge in E; lia.
Qed.

Lemma utf8_char_nonempty (c : char) (b : bytes) :
  utf8_char c = Some b -> (1 <= length b)%nat.
Proof.
  unfold utf8_char.
  repeat match goal with
         | |- context [if ?x then _ else _] => destruct x
         end; intros [= <-]; simpl; lia.
Qed.

(** Text always encodes. *)
Lemma encode_utf8_text (s : str) :
  text s -> exists b, encode_utf8 s = Some b.
Proof.
  unfold text; induction s as [|c s IH]; simpl; [eauto|].
  intros H; apply andb_true_iff in H; destruct H as [Hc Hs].
  destruct (utf8_char_scalar _ Hc) as [b ->].
  destruct (IH Hs) as [bs ->]; eauto.
Qed.

(** An encoding has at least one byte per code point. *)
Lemma encode_utf8_length (s : str) (b : bytes) :
  encode_utf8 s = Some b -> (length s <= length b)%nat.
Proof.
  revert b; induction s as [|c s IH]; intros b; simpl.
  - intros [= <-]; simpl; lia.
  - destruct (utf8_char c) as [x|] eqn:E; [|discriminate].
    destruct (encode_utf8 s) as [y|]; [|discriminate].
    intros [= <-]; rewrite length_app.
    pose proof (utf8_char_nonempty _ _ E); specialize (IH _ eq_refl); lia.
Qed.

Lemma text_app (s t : str) : text (s ++ t) <-> text s /\ text t.
Proof. unfold text; rewrite forallb_app, andb_true_iff; reflexivity. Qed.

Lemma text_join (data : list str) : Forall text data -> text (join data).
Proof.
  induction 1 as [|s data Hs _ IH]; [reflexivity|].
  unfold join; simpl; apply text_app; split; assumption.
Qed.

End Utf8.

(** ** The deque *)

Section Deque.

Lemma deliver_snoc (ms : list str) (m : str) (self : ConWebsock) :
  deliver (ms ++ [m]) self = on_message m (deliver ms self).
Proof. unfold deliver; rewrite fold_left_app; reflexivity. Qed.

Lemma fifo_deliver (ms : list str) (self : ConWebsock) :
  fifo (deliver ms self) = fifo self ++ ms.
Proof.
  induction ms as [|m ms IH] using rev_ind.
  - rewrite app_nil_r; reflexivity.
  - rewrite deliver_snoc; simpl; rewrite IH, app_assoc; reflexivity.
Qed.

Lemma timeout_deliver (ms : list str) (self : ConWebsock) :
  timeout (deliver ms self) = timeout self.
Proof.
  induction ms as [|m ms IH] using rev_ind; [reflexivity|].
  rewrite deliver_snoc; exact IH.
Qed.

Lemma drain_app (q : list str) (p s : list obs) :
  drain q (p ++ s) =
  (fst (drain q p) ++ fst (drain (snd (drain q p)) s),
   snd (drain (snd (drain q p)) s)).
Proof.
  revert q; induction p as [|o p IH]; intros q; simpl.
  - destruct (drain q s); reflexivity.
  - destruct (q ++ arrived o) as [|c q']; rewrite IH; reflexivity.
Qed.

(** Nothing is lost and nothing is reordered: what was taken, then what is
    left, is what was queued, then what arrived. *)
Lemma drain_conserves (q : list str) (os : list obs) :
  fst (drain q os) ++ snd (drain q os) = q ++ arrivals os.
Proof.
  revert q; induction os as [|o os IH]; intros q; simpl.
  - rewrite app_nil_r; reflexivity.
  - destruct (q ++ arrived o) as [|c q'] eqn:E.
    + rewrite IH; apply app_eq_nil in E; destruct E as [-> ->]; reflexivity.
    + simpl; rewrite IH, app_assoc, E; reflexivity.
Qed.

Lemma drain_length (q : list str) (os : list obs) :
  (length (fst (drain q os)) <= length os)%nat.
Proof.
  revert q; induction os as [|o os IH]; intros q; simpl; [lia|].
  destruct (q ++ arrived o) as [|c q']; simpl.
  - specialize (IH []); lia.
  - specialize (IH q'); lia.
Qed.

Lemma examined_app (data : str) (q : list str) (p s : list obs) :
  examined data q (p ++ s) =
  examined data q p ++
  examined (data ++ concat (fst (drain q p))) (snd (drain q p)) s.
Proof.
  revert data q; induction p as [|o p IH]; intros data q; simpl.
  - rewrite app_nil_r; reflexivity.
  - destruct (q ++ arrived o) as [|c q']; rewrite IH; simpl;
      rewrite <- ?app_assoc; reflexivity.
Qed.

Lemma drain_snoc_length (q : list str) (p : list obs) (o : obs) :
  (length (fst (drain q (p ++ [o]))) <= S (length (fst (drain q p))))%nat.
Proof.
  rewrite drain_app; simpl; rewrite length_app.
  pose proof (drain_length (snd (drain q p)) [o]) as L; simpl in L; lia.
Qed.

Lemma drain_prefix_length (q : list str) (p s : list obs) :
  (length (fst (drain q p)) <= length (fst (drain q (p ++ s))))%nat.
Proof. rewrite drain_app; simpl; rewrite length_app; lia. Qed.

(** With as many chunks queued as there are observations, each
    observation takes one of them. *)
Lemma drain_queued (pre : list obs) :
  forall first more,
  length first = length pre ->
  drain (first ++ more) pre = (first, more ++ arrivals pre).
Proof.
  induction pre as [|o pre IH]; intros first more Hlen.
  - destruct first; [|discriminate]; simpl; rewrite app_nil_r; reflexivity.
  - destruct first as [|c first]; [discriminate|].
    injection Hlen as Hlen; simpl.
    rewrite <- app_assoc, (IH first (more ++ arrived o) Hlen); simpl.
    rewrite <- app_assoc; reflexivity.
Qed.

(** Whatever is taken is taken from the front. *)
Lemma drain_front (os : list obs) (x : str) (q : list str) :
  fst (drain (x :: q) os) = [] \/
  exists more, fst (drain (x :: q) os) = x :: more.
Proof. destruct os as [|o os]; simpl; eauto. Qed.

Lemma arrivals_snoc (p : list obs) (o : obs) :
  arrivals (p ++ [o]) = arrivals p ++ arrived o.
Proof.
  unfold arrivals; rewrite flat_map_app; simpl; rewrite app_nil_r.
  reflexivity.
Qed.

End Deque.

(** ** The loop of read *)

Section ReadLoop.

Variables (size : Z) (tstart : float).

(** A run of the loop that returns took, at the observations [pre] it
    passed alive, what [drain] takes; it stopped either on reaching [size]
    chunks or at the first observation past the deadline. *)
Lemma read_loop_returns (env : list obs) :
  forall data self data' self' env',
  read_loop size tstart data self env = (Return data', self', env') ->
  exists pre,
    data' = data ++ fst (drain (fifo self) pre) /\
    existsb (expired (timeout self) tstart) pre = false /\
    timeout self' = timeout self /\
    (forall p s, pre = p ++ s -> s <> [] ->
       (Z.of_nat (length (data ++ fst (drain (fifo self) p))) < size)%Z) /\
    ((env = pre ++ env' /\
      fifo self' = snd (drain (fifo self) pre) /\
      (size <= Z.of_nat (length data'))%Z)
     \/
     (exists o, env = pre ++ o :: env' /\
        expired (timeout self) tstart o = true /\
        fifo self' = snd (drain (fifo self) pre) ++ arrived o /\
        (Z.of_nat (length data') < size)%Z)).
Proof.
  induction env as [|o env IH]; intros data self data' self' env'.
  - simpl; destruct (Z.ltb_spec (Z.of_nat (length data)) size) as [Hlt|Hge];
      [discriminate|].
    intros [= <- <- <-]; exists []; simpl; rewrite app_nil_r.
    repeat split; auto.
    intros p s Hp Hs; destruct p; destruct s; try discriminate; congruence.
  - simpl; destruct (Z.ltb_spec (Z.of_nat (length data)) size) as [Hlt|Hge].
    2:{ intros [= <- <- <-]; exists []; simpl; rewrite app_nil_r.
        repeat split; auto.
        intros p s Hp Hs; destruct p; destruct s; try discriminate;
          congruence. }
    rewrite timeout_deliver, fifo_deliver.
    fold (expired (timeout self) tstart o).
    destruct (expired (timeout self) tstart o) eqn:Hx.
    + intros [= <- <- <-]; exists []; simpl; rewrite app_nil_r.
      repeat split; auto.
      * apply timeout_deliver.
      * intros p s Hp Hs; destruct p; destruct s; try discriminate;
          congruence.
      * right; exists o; repeat split; auto. apply fifo_deliver.
    + destruct (fifo self ++ arrived o) as [|chunk q] eqn:Hq; intros Hrun.
      * apply IH in Hrun; destruct Hrun as (pre & Hd & Hal & Ht & Hp & Hend).
        rewrite timeout_deliver in Hal, Ht, Hend.
        rewrite fifo_deliver, Hq in Hd, Hp, Hend.
        exists (o :: pre); simpl; rewrite Hq, Hx.
        repeat split; auto.
        -- intros [|o' p] s E Hs; simpl.
           ++ rewrite app_nil_r; exact Hlt.
           ++ injection E as <- E; rewrite Hq; exact (Hp _ _ E Hs).
        -- destruct Hend as [(-> & Hf & Hn)|(o' & -> & Ho' & Hf & Hn)].
           ++ left; auto.
           ++ right; exists o'; auto.
      * apply IH in Hrun; destruct Hrun as (pre & Hd & Hal & Ht & Hp & Hend).
        simpl in Hd, Hal, Ht, Hp, Hend.
        rewrite timeout_deliver in Hal, Ht, Hend.
        exists (o :: pre); simpl; rewrite Hq, Hx; simpl.
        repeat split; auto.
        -- rewrite Hd, <- app_assoc; reflexivity.
        -- intros [|o' p] s E Hs; simpl.
           ++ rewrite app_nil_r; exact Hlt.
           ++ injection E as <- E; rewrite Hq; simpl.
              specialize (Hp _ _ E Hs); rewrite <- app_assoc in Hp; exact Hp.
        -- destruct Hend as [(-> & Hf & Hn)|(o' & -> & Ho' & Hf & Hn)].
           ++ left; auto.
           ++ right; exists o'; auto.
Qed.

(** Over observations that are all alive, and while fewer than [size]
    chunks have been taken, the loop goes on taking what [drain] takes. *)
Lemma read_loop_runs (pre : list obs) :
  forall data self rest,
  existsb (expired (timeout self) tstart) pre = false ->
  (forall p s, pre = p ++ s -> s <> [] ->
     (Z.of_nat (length (data ++ fst (drain (fifo self) p))) < size)%Z) ->
  exists self1,
    read_loop size tstart data self (pre ++ rest) =
    read_loop size tstart (data ++ fst (drain (fifo self) pre)) self1 rest /\
    fifo self1 = snd (drain (fifo self) pre) /\
    timeout self1 = timeout self.
Proof.
  induction pre as [|o pre IH]; intros data self rest Hal Hp.
  - exists self; simpl; rewrite app_nil_r; auto.
  - simpl in Hal; apply orb_false_iff in Hal; destruct Hal as [Hx Hal].
    assert (Hlt : (Z.of_nat (length data) < size)%Z).
    { specialize (Hp [] (o :: pre) eq_refl ltac:(discriminate)).
      simpl in Hp; rewrite app_nil_r in Hp; exact Hp. }
    simpl. apply Z.ltb_lt in Hlt; rewrite Hlt.
    rewrite timeout_deliver, fifo_deliver.
    fold (expired (timeout self) tstart o); rewrite Hx.
    destruct (fifo self ++ arrived o) as [|chunk q] eqn:Hq.
    + destruct (IH data (deliver (arrived o) self) rest) as (self1 & E & F & T).
      * rewrite timeout_deliver; exact Hal.
      * intros p s Ep Hs; rewrite fifo_deliver, Hq.
        specialize (Hp (o :: p) s ltac:(simpl; congruence) Hs).
        simpl in Hp; rewrite Hq in Hp; exact Hp.
      * rewrite fifo_deliver, Hq in E, F; rewrite timeout_deliver in T.
        exists self1; auto.
    + destruct (IH (data ++ [chunk]) (set_fifo q (deliver (arrived o) self))
                  rest) as (self1 & E & F & T).
      * simpl; rewrite timeout_deliver; exact Hal.
      * intros p s Ep Hs; simpl.
        specialize (Hp (o :: p) s ltac:(simpl; congruence) Hs).
        simpl in Hp; rewrite Hq in Hp; simpl in Hp.
        rewrite <- app_assoc; exact Hp.
      * simpl in E, F, T; rewrite timeout_deliver in T.
        rewrite <- app_assoc in E; exists self1; auto.
Qed.

Lemma read_loop_deadline (data : list str) (self : ConWebsock) (o : obs)
    (rest : list obs) :
  (Z.of_nat (length data) < size)%Z ->
  expired (timeout self) tstart o = true ->
  read_loop size tstart data self (o :: rest) =
  (Return data, deliver (arrived o) self, rest).
Proof.
  intros Hlt Hx; simpl; apply Z.ltb_lt in Hlt; rewrite Hlt.
  rewrite timeout_deliver; fold (expired (timeout self) tstart o).
  rewrite Hx; reflexivity.
Qed.

Lemma read_loop_full (data : list str) (self : ConWebsock) (env : list obs) :
  (size <= Z.of_nat (length data))%Z ->
  read_loop size tstart data self env = (Return data, self, env).
Proof.
  intros Hge; apply Z.ltb_ge in Hge; destruct env; simpl; rewrite Hge;
    reflexivity.
Qed.

(** The loop has no [raise]. *)
Lemma read_loop_never_raises (env : list obs) :
  forall data self e,
  result (read_loop size tstart data self env) <> Raise e.
Proof.
  induction env as [|o env IH]; intros data self e; simpl;
    destruct (Z.of_nat (length data) <? size)%Z; try discriminate.
  destruct (PrimFloat.ltb _ _); [discriminate|].
  destruct (fifo (deliver (arrived o) self)); apply IH.
Qed.

End ReadLoop.

(** ** The loop of wait_for_string *)

Section WaitLoop.

Variables (string : str) (tstart : float).

(** How a run of the loop that does not starve ended: after observations
    [pre], all alive and none showing the marker, the observation [o] was
    either past the deadline, or alive with a chunk that completed the
    marker in the buffer. *)
Lemma wait_loop_ends (env : list obs) :
  forall data self r self' env',
  wait_for_string_loop string tstart data self env = (r, self', env') ->
  r <> Starved ->
  exists pre o,
    env = pre ++ o :: env' /\
    existsb (expired (timeout self) tstart) pre = false /\
    existsb (contains string) (examined data (fifo self) pre) = false /\
    timeout self' = timeout self /\
    ((expired (timeout self) tstart o = true /\
      r = Raise (ConError (timed_out string)) /\
      fifo self' = snd (drain (fifo self) pre) ++ arrived o)
     \/
     (expired (timeout self) tstart o = false /\
      exists chunk q buf,
        snd (drain (fifo self) pre) ++ arrived o = chunk :: q /\
        buf = data ++ concat (fst (drain (fifo self) pre)) ++ chunk /\
        contains string buf = true /\
        ((string = [] /\ r = Raise (ValueError (lit "empty separator")) /\
          fifo self' = q)
         \/
         (string <> [] /\ r = Return PyNone /\
          exists before rest,
            find string buf = Some (before, rest) /\
            fifo self' = rest :: q)))).
Proof.
  induction env as [|o env IH]; intros data self r self' env'; simpl.
  - intros [= <- _ _] H; contradiction.
  - rewrite timeout_deliver, fifo_deliver.
    fold (expired (timeout self) tstart o).
    destruct (expired (timeout self) tstart o) eqn:Hx.
    + intros [= <- <- <-] _; exists [], o; simpl.
      repeat split; auto using timeout_deliver.
      left; repeat split; auto using fifo_deliver.
    + destruct (fifo self ++ arrived o) as [|chunk q] eqn:Hq.
      * intros Hrun Hr; destruct (IH _ _ _ _ _ Hrun Hr)
          as (pre & o' & -> & Hal & Hnf & Ht & Hend).
        rewrite timeout_deliver in Hal, Ht, Hend.
        rewrite fifo_deliver, Hq in Hnf, Hend.
        exists (o :: pre), o'; simpl; rewrite Hq, Hx; auto.
      * destruct (contains string (data ++ chunk)) eqn:Hc.
        -- intros Hrun _; exists [], o; simpl; rewrite Hx.
           destruct (split1_found _ _ Hc)
             as [(Hs & E)|(Hs & before & rest & F & E)];
             rewrite E in Hrun; injection Hrun as <- <- <-.
           ++ do 3 (split; [reflexivity|]).
              split; [apply timeout_deliver|].
              right; split; [reflexivity|].
              exists chunk, q, (data ++ chunk).
              do 3 (split; [reflexivity || assumption|]).
              left; auto.
           ++ do 3 (split; [reflexivity|]).
              split; [apply timeout_deliver|].
              right; split; [reflexivity|].
              exists chunk, q, (data ++ chunk).
              do 3 (split; [reflexivity || assumption|]).
              right; do 2 (split; [reflexivity || assumption|]).
              exists before, rest; auto.
        -- intros Hrun Hr; destruct (IH _ _ _ _ _ Hrun Hr)
             as (pre & o' & -> & Hal & Hnf & Ht & Hend).
           simpl in Hal, Hnf, Ht, Hend.
           rewrite timeout_deliver in Hal, Ht, Hend.
           exists (o :: pre), o'; simpl; rewrite Hq, Hx; simpl; rewrite Hc.
           repeat split; auto.
           destruct Hend as [?|(Ho' & c' & q' & buf & Hq' & Hb & Hcb & Hrest)];
             [left; assumption|].
           right; split; [assumption|].
           exists c', q', buf.
           split; [exact Hq'|].
           split; [rewrite Hb, <- !app_assoc; reflexivity|].
           split; assumption.
Qed.

(** Over observations that are all alive and show no marker the loop goes
    on, appending what [drain] takes to its buffer. *)
Lemma wait_loop_runs (pre : list obs) :
  forall data self rest,
  existsb (expired (timeout self) tstart) pre = false ->
  existsb (contains string) (examined data (fifo self) pre) = false ->
  exists self1,
    wait_for_string_loop string tstart data self (pre ++ rest) =
    wait_for_string_loop string tstart
      (data ++ concat (fst (drain (fifo self) pre))) self1 rest /\
    fifo self1 = snd (drain (fifo self) pre) /\
    timeout self1 = timeout self.
Proof.
  induction pre as [|o pre IH]; intros data self rest Hal Hnf.
  - exists self; simpl; rewrite app_nil_r; auto.
  - simpl in Hal; apply orb_false_iff in Hal; destruct Hal as [Hx Hal].
    simpl; rewrite timeout_deliver, fifo_deliver.
    fold (expired (timeout self) tstart o); rewrite Hx.
    simpl in Hnf.
    destruct (fifo self ++ arrived o) as [|chunk q] eqn:Hq.
    + destruct (IH data (deliver (arrived o) self) rest) as (self1 & E & F & T).
      * rewrite timeout_deliver; exact Hal.
      * rewrite fifo_deliver, Hq; exact Hnf.
      * rewrite fifo_deliver, Hq in E, F; rewrite timeout_deliver in T.
        exists self1; auto.
    + simpl in Hnf; apply orb_false_iff in Hnf; destruct Hnf as [Hc Hnf].
      rewrite Hc.
      destruct (IH (data ++ chunk) (set_fifo q (deliver (arrived o) self))
                  rest) as (self1 & E & F & T).
      * simpl; rewrite timeout_deliver; exact Hal.
      * exact Hnf.
      * simpl in E, F, T; rewrite timeout_deliver in T.
        rewrite <- app_assoc in E; exists self1; auto.
Qed.

Lemma wait_loop_deadline (data : str) (self : ConWebsock) (o : obs)
    (rest : list obs) :
  expired (timeout self) tstart o = true ->
  wait_for_string_loop string tstart data self (o :: rest) =
  (Raise (ConError (timed_out string)), deliver (arrived o) self, rest).
Proof.
  intros Hx; simpl; rewrite timeout_deliver.
  fold (expired (timeout self) tstart o); rewrite Hx; reflexivity.
Qed.

Lemma wait_loop_found (data : str) (self : ConWebsock) (o : obs)
    (rest : list obs) (chunk : str) (q : list str) (before after_ : str) :
  expired (timeout self) tstart o = false ->
  fifo self ++ arrived o = chunk :: q ->
  string <> [] ->
  find string (data ++ chunk) = Some (before, after_) ->
  wait_for_string_loop string tstart data self (o :: rest) =
  (Return PyNone,
   set_fifo (after_ :: q) (set_fifo q (deliver (arrived o) self)), rest).
Proof.
  intros Hx Hq Hs F; simpl; rewrite timeout_deliver, fifo_deliver.
  fold (expired (timeout self) tstart o); rewrite Hx, Hq.
  unfold contains, split1; rewrite F.
  destruct string; [contradiction|reflexivity].
Qed.

(** While the chunks queued so far do not hold the marker, none of the
    buffers built from them does. *)
Lemma examined_queued (pre : list obs) :
  forall data first more,
  length first = length pre ->
  contains string (data ++ concat first) = false ->
  existsb (contains string) (examined data (first ++ more) pre) = false.
Proof.
  induction pre as [|o pre IH]; intros data first more Hlen Hc;
    [reflexivity|].
  destruct first as [|c first]; [discriminate|].
  injection Hlen as Hlen; simpl in Hc |- *.
  rewrite app_assoc in Hc.
  rewrite <- app_assoc, (IH (data ++ c) first (more ++ arrived o) Hlen Hc).
  rewrite orb_false_r.
  destruct (contains string (data ++ c)) eqn:E; [|reflexivity].
  apply contains_grows with (t := concat first) in E; congruence.
Qed.

End WaitLoop.

(** ** The calls as a whole *)

Section Calls.

(** A successful [wait_for_string]: the first reading [t0] starts the
    clock, the loop passes the observations [pre], and the buffer it has
    built by then is the first one to hold the marker. *)
Lemma wait_for_string_success (string : str) (self : ConWebsock)
    (env : list obs) (v : pyval) :
  result (wait_for_string string self env) = Return v ->
  exists t0 pre earlier before rest,
    env = t0 :: pre ++ unread (wait_for_string string self env) /\
    v = PyNone /\
    string <> [] /\
    existsb (expired (timeout self) (now t0)) pre = false /\
    examined [] (fifo self ++ arrived t0) pre =
      earlier ++ [before ++ string ++ rest] /\
    existsb (contains string) earlier = false /\
    find string (before ++ string ++ rest) = Some (before, rest) /\
    concat (fst (drain (fifo self ++ arrived t0) pre)) =
      before ++ string ++ rest /\
    fifo (after (wait_for_string string self env)) =
      rest :: snd (drain (fifo self ++ arrived t0) pre) /\
    timeout (after (wait_for_string string self env)) = timeout self.
Proof.
  destruct env as [|t0 env]; [discriminate|].
  unfold wait_for_string.
  destruct (wait_for_string_loop string (now t0) []
              (deliver (arrived t0) self) env) as [[r self'] env'] eqn:Hrun.
  unfold result, after, unread; simpl; intros ->.
  destruct (wait_loop_ends _ _ _ _ _ _ _ _ Hrun ltac:(discriminate))
    as (pre & o & -> & Hal & Hnf & Ht & Hend).
  rewrite timeout_deliver in Hal, Ht, Hend.
  rewrite fifo_deliver in Hnf, Hend.
  destruct Hend as [(_ & [=] & _)|(Ho & chunk & q & buf & Hq & Hb & Hc & Hr)].
  destruct Hr as [(_ & [=] & _)|(Hs & [= ->] & before & rest & F & Hf)].
  simpl in Hb; pose proof (find_splits _ _ _ _ F) as Hbuf.
  exists t0, (pre ++ [o]),
    (examined [] (fifo self ++ arrived t0) pre), before, rest.
  rewrite <- app_assoc, drain_app, examined_app; simpl; rewrite Hq; simpl.
  rewrite existsb_app; simpl; rewrite Hal, Ho.
  rewrite concat_app; simpl; rewrite app_nil_r.
  rewrite <- Hbuf, Hb; repeat split; auto.
  rewrite <- Hb; exact F.
Qed.

(** A [read] that returns: as [read_loop_returns], with the clock started
    at the first reading [t0] and the chunks taken encoded at the end. *)
Lemma read_returns (size : Z) (self : ConWebsock) (env : list obs)
    (bs : bytes) :
  result (read size self env) = Return bs ->
  exists t0 pre,
    encode_utf8 (join (fst (drain (fifo self ++ arrived t0) pre))) = Some bs /\
    existsb (expired (timeout self) (now t0)) pre = false /\
    timeout (after (read size self env)) = timeout self /\
    (forall p s, pre = p ++ s -> s <> [] ->
       (Z.of_nat (length (fst (drain (fifo self ++ arrived t0) p))) < size)%Z)
    /\
    ((env = t0 :: pre ++ unread (read size self env) /\
      fifo (after (read size self env)) =
        snd (drain (fifo self ++ arrived t0) pre) /\
      (size <=
       Z.of_nat (length (fst (drain (fifo self ++ arrived t0) pre))))%Z)
     \/
     (exists o, env = t0 :: pre ++ o :: unread (read size self env) /\
        expired (timeout self) (now t0) o = true /\
        fifo (after (read size self env)) =
          snd (drain (fifo self ++ arrived t0) pre) ++ arrived o /\
        (Z.of_nat (length (fst (drain (fifo self ++ arrived t0) pre)))
         < size)%Z)).
Proof.
  destruct env as [|t0 env]; [discriminate|].
  unfold read.
  destruct (read_loop size (now t0) [] (deliver (arrived t0) self) env)
    as [[r self'] env'] eqn:Hrun.
  destruct r as [data| |]; unfold result, after, unread; simpl;
    [|discriminate..].
  destruct (read_loop_returns _ _ _ _ _ _ _ _ Hrun)
    as (pre & -> & Hal & Ht & Hp & Hend).
  rewrite timeout_deliver in Hal, Ht, Hend.
  rewrite fifo_deliver in Hp, Hend |- *.
  simpl in Hp, Hend |- *.
  unfold encode; destruct (encode_utf8 _) as [b|] eqn:E; [|discriminate].
  intros [= ->]; exists t0, pre.
  do 4 (split; [assumption|]).
  destruct Hend as [(-> & Hf & Hn)|(o & -> & Ho & Hf & Hn)].
  - left; auto.
  - right; exists o; auto.
Qed.

(** First in, first out: the chunks a returning [read] took, followed by
    the deque it leaves, are the deque it found followed by what arrived
    while it ran. *)
Lemma read_conserves (size : Z) (self : ConWebsock) (env : list obs)
    (bs : bytes) :
  result (read size self env) = Return bs ->
  exists consumed taken,
    env = consumed ++ unread (read size self env) /\
    encode_utf8 (join taken) = Some bs /\
    taken ++ fifo (after (read size self env)) =
      fifo self ++ arrivals consumed.
Proof.
  intros H; destruct (read_returns _ _ _ _ H)
    as (t0 & pre & E & _ & _ & _ & Hend).
  pose proof (drain_conserves (fifo self ++ arrived t0) pre) as C.
  destruct Hend as [(Henv & Hf & _)|(o & Henv & _ & Hf & _)].
  - exists (t0 :: pre), (fst (drain (fifo self ++ arrived t0) pre)).
    rewrite Hf, C; simpl; rewrite <- app_assoc; auto.
  - exists (t0 :: pre ++ [o]), (fst (drain (fifo self ++ arrived t0) pre)).
    rewrite Hf, app_assoc, C; unfold arrivals; simpl.
    rewrite flat_map_app; simpl.
    rewrite <- !app_assoc, app_nil_r; auto.
Qed.

(** A [read] that returns anything returns the front chunk first. *)
Lemma read_takes_front (size : Z) (self : ConWebsock) (env : list obs)
    (bs : bytes) (x : str) (q : list str) :
  fifo self = x :: q ->
  result (read size self env) = Return bs ->
  bs = [] \/
  exists bx tail, encode_utf8 x = Some bx /\ bs = bx ++ tail.
Proof.
  intros Hq H; destruct (read_returns _ _ _ _ H) as (t0 & pre & E & _).
  rewrite Hq in E; simpl in E.
  destruct (drain_front pre x (q ++ arrived t0)) as [D|(more & D)];
    rewrite D in E.
  - left; injection E as <-; reflexivity.
  - right; unfold join in E; simpl in E; rewrite encode_utf8_app in E.
    destruct (encode_utf8 x) as [bx|]; [|discriminate].
    destruct (encode_utf8 (concat more)) as [tail|]; [|discriminate].
    injection E as <-; eauto.
Qed.

Lemma bind_returns {A B} (m : method A) (k : A -> method B)
    (self : ConWebsock) (env : list obs) (b : B) :
  result (bind m k self env) = Return b ->
  exists a,
    result (m self env) = Return a /\
    bind m k self env = k a (after (m self env)) (unread (m self env)).
Proof.
  unfold bind; destruct (m self env) as [[[a| |] s] e]; try discriminate.
  intros _; exists a; auto.
Qed.

(** The same over a sequence of reads. *)
Lemma reads_conserve (sizes : list Z) :
  forall self env bss,
  result (reads sizes self env) = Return bss ->
  exists consumed taken,
    env = consumed ++ unread (reads sizes self env) /\
    encode_utf8 (join taken) = Some (concat bss) /\
    taken ++ fifo (after (reads sizes self env)) =
      fifo self ++ arrivals consumed.
Proof.
  induction sizes as [|size sizes IH]; intros self env bss; simpl.
  - intros [= <-]; exists [], []; simpl; rewrite app_nil_r; auto.
  - intros H; destruct (bind_returns _ _ _ _ _ H) as (b & Hb & E1).
    rewrite E1 in H |- *.
    destruct (bind_returns _ _ _ _ _ H) as (bs & Hbs & E2).
    rewrite E2 in H |- *; injection H as <-.
    unfold ret; change (after (Return (b :: bs), ?s, ?e)) with s;
      change (unread (Return (b :: bs), ?s, ?e)) with e.
    destruct (read_conserves _ _ _ _ Hb) as (c1 & t1 & Henv1 & Enc1 & Q1).
    destruct (IH _ _ _ Hbs) as (c2 & t2 & Henv2 & Enc2 & Q2).
    exists (c1 ++ c2), (t1 ++ t2); repeat split.
    + rewrite <- app_assoc, <- Henv2; exact Henv1.
    + unfold join in *; rewrite concat_app, encode_utf8_app, Enc1, Enc2.
      reflexivity.
    + rewrite <- app_assoc, Q2, app_assoc, Q1.
      unfold arrivals; rewrite flat_map_app, app_assoc; reflexivity.
Qed.

End Calls.

(** * The behaviour of the interface *)

(** ** First in, first out *)



(** X15. The bytes read do not depend on where the text was cut into
    chunks, nor on the sizes asked for. *)
Lemma reads_ignore_chunking (chunks chunks' : list str) (sizes sizes' : list Z)
    (self self' : ConWebsock) (env env' : list obs) (bss bss' : list bytes) :
  join chunks = join chunks' ->
  fifo self = [] -> fifo self' = [] ->
  arrivals env = [] -> arrivals env' = [] ->
  result (reads sizes (deliver chunks self) env) = Return bss ->
  result (reads sizes' (deliver chunks' self') env') = Return bss' ->
  fifo (after (reads sizes (deliver chunks self) env)) = [] ->
  fifo (after (reads sizes' (deliver chunks' self') env')) = [] ->
  concat bss = concat bss'.
Proof.
  intros Hj Hq Hq' Ha Ha' Hr Hr' Hl Hl'.
  destruct (reads_conserve _ _ _ _ Hr) as (c & t & Henv & Enc & Q).
  destruct (reads_conserve _ _ _ _ Hr') as (c' & t' & Henv' & Enc' & Q').
  rewrite Henv in Ha; rewrite Henv' in Ha'.
  unfold arrivals in Ha, Ha'; rewrite flat_map_app in Ha, Ha'.
  apply app_eq_nil in Ha; apply app_eq_nil in Ha'.
  destruct Ha as [Ha _]; destruct Ha' as [Ha' _].
  unfold arrivals in Q, Q'.
  rewrite Hl, Ha, fifo_deliver, Hq, !app_nil_r in Q.
  rewrite Hl', Ha', fifo_deliver, Hq', !app_nil_r in Q'.
  simpl in Q, Q'; subst t t'; congruence.
Qed.

(** ** inWaiting *)

Lemma inWaiting_deliver (chunks : list str) (self : ConWebsock) :
  inWaiting (deliver chunks self) =
  (inWaiting self + Z.of_nat (length chunks))%Z.
Proof.
  unfold inWaiting; rewrite fifo_deliver, length_app; lia.
Qed.

(** C7. After K chunks have been pushed by [on_message] onto an empty deque
    and nothing has been read, [inWaiting] returns K: the number of chunks,
    whatever their lengths. *)
Theorem inWaiting_counts_chunks (chunks : list str) (self : ConWebsock) :
  fifo self = [] ->
  inWaiting (deliver chunks self) = Z.of_nat (length chunks).
Proof.
  intros Hq; rewrite inWaiting_deliver; unfold inWaiting; rewrite Hq.
  reflexivity.
Qed.

Lemma inWaiting_counts_chunks_witness :
  inWaiting (deliver [lit "hello"; lit ""; lit "wo"] (connection [] 1)) = 3%Z.
Proof.
  apply (inWaiting_counts_chunks [lit "hello"; lit ""; lit "wo"]
           (connection [] 1)); reflexivity.
Defined.

(** ** close *)

(** C9. [close] calls [ws.close()] and then, whatever that call did, wakes
    the waiters with [notify_all]; when [ws.close()] raised, the exception
    is the outcome of [close], and otherwise [close] returns. *)
Theorem close_always_notifies (self : ConWebsock) :
  log (snd (close self)) = log self ++ [WsClose; NotifyAll] /\
  (forall e, close_raises (ws self) = Some e ->
     fst (close self) = Raise e /\
     log (snd (close self)) = log self ++ [WsClose; NotifyAll]) /\
  (close_raises (ws self) = None -> fst (close self) = Return tt).
Proof.
  unfold close; simpl; rewrite <- app_assoc; simpl.
  split; [reflexivity|]; split.
  - intros e ->; auto.
  - intros ->; reflexivity.
Qed.

(** ** The login *)

Section Login.

Lemma same_transport_refl (self : ConWebsock) : same_transport self self.
Proof. repeat split. Qed.

Lemma same_transport_trans (a b c : ConWebsock) :
  same_transport a b -> same_transport b c -> same_transport a c.
Proof.
  unfold same_transport; intros (? & ? & ? & ?) (? & ? & ? & ?).
  repeat split; congruence.
Qed.

Lemma same_transport_deliver (ms : list str) (self : ConWebsock) :
  same_transport self (deliver ms self).
Proof.
  induction ms as [|m ms IH] using rev_ind; [apply same_transport_refl|].
  rewrite deliver_snoc; destruct IH as (Hi & Hp & Hw & Hs).
  repeat split; simpl; auto.
  unfold sent in *; simpl; rewrite flat_map_app; simpl.
  rewrite app_nil_r; exact Hs.
Qed.

Lemma same_transport_set_fifo (q : list str) (self : ConWebsock) :
  same_transport self (set_fifo q self).
Proof. repeat split. Qed.

Lemma same_transport_set_timeout (t : float) (self : ConWebsock) :
  same_transport self (set_timeout t self).
Proof. repeat split. Qed.

Create HintDb transport.

Local Hint Resolve same_transport_refl same_transport_deliver
  same_transport_set_fifo same_transport_set_timeout : transport.

(** [wait_for_string] sends nothing and keeps the credentials. *)
Lemma wait_loop_same_transport (string : str) (tstart : float) (env : list obs) :
  forall data self,
  same_transport self
    (after (wait_for_string_loop string tstart data self env)).
Proof.
  induction env as [|o env IH]; intros data self; simpl;
    [apply same_transport_refl|].
  destruct (PrimFloat.ltb _ _); [unfold after; simpl; auto with transport|].
  assert (T : forall q,
             same_transport self (set_fifo q (deliver (arrived o) self))).
  { intros q; apply same_transport_trans with (deliver (arrived o) self);
      auto with transport. }
  destruct (fifo (deliver (arrived o) self)) as [|chunk q].
  - eapply same_transport_trans; [|apply IH]; auto with transport.
  - specialize (T q); destruct (contains string (data ++ chunk)).
    +
      destruct (split1 string (data ++ chunk)) as [[|x [|y [|z l]]]| |];
        unfold after; simpl; exact T.
    + eapply same_transport_trans; [|apply IH]; exact T.
Qed.

Lemma wait_for_string_same_transport (string : str) (self : ConWebsock)
    (env : list obs) :
  same_transport self (after (wait_for_string string self env)).
Proof.
  destruct env as [|t0 env]; [apply same_transport_refl|].
  unfold wait_for_string.
  eapply same_transport_trans; [|apply wait_loop_same_transport].
  auto with transport.
Qed.

Lemma wait_loop_keeps_timeout (string : str) (tstart : float) (env : list obs) :
  forall data self,
  timeout (after (wait_for_string_loop string tstart data self env)) =
  timeout self.
Proof.
  induction env as [|o env IH]; intros data self; simpl; [reflexivity|].
  destruct (PrimFloat.ltb _ _); [apply timeout_deliver|].
  destruct (fifo (deliver (arrived o) self)) as [|chunk q].
  - rewrite IH; apply timeout_deliver.
  - destruct (contains string (data ++ chunk)).
    + destruct (split1 string (data ++ chunk)) as [[|x [|y [|z l]]]| |];
        apply timeout_deliver.
    + rewrite IH; apply timeout_deliver.
Qed.

Lemma wait_for_string_keeps_timeout (string : str) (self : ConWebsock)
    (env : list obs) :
  timeout (after (wait_for_string string self env)) = timeout self.
Proof.
  destruct env as [|t0 env]; [reflexivity|].
  unfold wait_for_string; rewrite wait_loop_keeps_timeout.
  apply timeout_deliver.
Qed.

Lemma sent_emit_send (data : str) (self : ConWebsock) :
  sent (emit (WsSend data) self) = sent self ++ [data].
Proof. unfold sent; simpl; rewrite flat_map_app; reflexivity. Qed.

(** A login that returns went through its five steps in order. *)
Lemma authenticate_steps (self : ConWebsock) (env : list obs) (v : pyval) :
  result (authenticate self env) = Return v ->
  let w1 := wait_for_string (lit "Password: ") (set_timeout 5 self) env in
  let s2 := emit (WsSend (password self ++ CR)) (after w1) in
  let w2 := wait_for_string (lit "WebREPL connected") s2 (unread w1) in
  result w1 = Return PyNone /\
  send_raises (ws self) (password self ++ CR) = None /\
  result w2 = Return PyNone /\
  v = PyNone /\
  after (authenticate self env) = set_timeout 1 (after w2) /\
  unread (authenticate self env) = unread w2.
Proof.
  intros H; cbv zeta.
  pose proof (wait_for_string_same_transport (lit "Password: ")
                (set_timeout 5 self) env) as (_ & Hp & Hw & _).
  pose proof (wait_for_string_success (lit "Password: ")
                (set_timeout 5 self) env) as V1.
  unfold authenticate, bind, assign_timeout, get_password, ws_send, ret
    in H |- *.
  destruct (wait_for_string (lit "Password: ") (set_timeout 5 self) env)
    as [[r1 s1] e1].
  unfold result, after, unread in *; cbn [fst snd] in *.
  destruct r1 as [v1| |]; [|discriminate..].
  cbn [password ws set_timeout] in Hp, Hw; rewrite Hp, Hw in H |- *.
  destruct (send_raises (ws self) (password self ++ CR)); [discriminate|].
  pose proof (wait_for_string_success (lit "WebREPL connected")
                (emit (WsSend (password self ++ CR)) s1) e1) as V2.
  destruct (wait_for_string (lit "WebREPL connected")
              (emit (WsSend (password self ++ CR)) s1) e1) as [[r2 s3] e3].
  unfold result in V2; cbn [fst snd] in *.
  destruct r2 as [v2| |]; [|discriminate..].
  injection H as <-.
  destruct (V1 _ eq_refl) as (? & ? & ? & ? & ? & _ & -> & _).
  destruct (V2 _ eq_refl) as (? & ? & ? & ? & ? & _ & -> & _).
  repeat split; reflexivity.
Qed.

End Login.

(** C5. The login is exactly this sequence.  It sets the timeout to 5
    seconds and waits for ["Password: "]; if that wait does not return, the
    login ends there with its outcome.  Otherwise it sends the password
    followed by a carriage return; if the transport raises, the login ends
    there.  Otherwise it waits for ["WebREPL connected"], the timeout still
    being 5 seconds; if that wait does not return, the login ends there with
    its outcome.  Otherwise it sets the timeout to 1 second and returns: a
    login that succeeds has sent the password once and leaves the timeout at
    1 second. *)
Theorem authenticate_sequence (self : ConWebsock) (env : list obs) :
  let s0 := set_timeout 5 self in
  let w1 := wait_for_string (lit "Password: ") s0 env in
  let s2 := emit (WsSend (password self ++ CR)) (after w1) in
  let w2 := wait_for_string (lit "WebREPL connected") s2 (unread w1) in
  let r := authenticate self env in
  timeout s0 = 5%float /\
  timeout s2 = 5%float /\
  ((forall v, result w1 <> Return v) ->
   result r = result w1 /\ after r = after w1 /\ unread r = unread w1) /\
  (forall v e,
     result w1 = Return v ->
     send_raises (ws self) (password self ++ CR) = Some e ->
     result r = Raise e /\ after r = s2 /\ unread r = unread w1) /\
  (forall v,
     result w1 = Return v ->
     send_raises (ws self) (password self ++ CR) = None ->
     (forall v', result w2 <> Return v') ->
     result r = result w2 /\ after r = after w2 /\ unread r = unread w2) /\
  (forall v v',
     result w1 = Return v ->
     send_raises (ws self) (password self ++ CR) = None ->
     result w2 = Return v' ->
     result r = Return PyNone /\
     after r = set_timeout 1 (after w2) /\
     unread r = unread w2 /\
     sent (after r) = sent self ++ [password self ++ CR] /\
     timeout (after r) = 1%float).
Proof.
  cbv zeta.
  pose proof (wait_for_string_same_transport (lit "Password: ")
                (set_timeout 5 self) env) as (_ & Hp & Hw & S1).
  pose proof (wait_for_string_keeps_timeout (lit "Password: ")
                (set_timeout 5 self) env) as T1.
  pose proof (wait_for_string_same_transport (lit "WebREPL connected")
                (emit (WsSend (password self ++ CR))
                   (after (wait_for_string (lit "Password: ")
                             (set_timeout 5 self) env)))
                (unread (wait_for_string (lit "Password: ")
                           (set_timeout 5 self) env))) as (_ & _ & _ & S2).
  rewrite sent_emit_send in S2.
  unfold authenticate, bind, assign_timeout, get_password, ws_send, ret.
  destruct (wait_for_string (lit "Password: ") (set_timeout 5 self) env)
    as [[r1 s1] e1].
  unfold result, after, unread in *; cbn [fst snd] in *.
  cbn [password ws timeout set_timeout] in Hp, Hw, T1.
  assert (S1' : sent s1 = sent self) by exact S1.
  rewrite Hp, Hw, S1' in *.
  split; [reflexivity|]; split; [exact T1|].
  destruct r1 as [v1| |].
  - split; [intros H; exfalso; exact (H v1 eq_refl)|].
    destruct (send_raises (ws self) (password self ++ CR)) as [e|].
    + split; [intros v e' _ [= <-]; auto|].
      split; intros; discriminate.
    + split; [intros; discriminate|].
      destruct (wait_for_string (lit "WebREPL connected")
                  (emit (WsSend (password self ++ CR)) s1) e1)
        as [[[v2| |] s3] e3]; cbn [fst snd] in *.
      * split; [intros v _ _ H; exfalso; exact (H v2 eq_refl)|].
        intros v v' _ _ _; repeat split; exact S2.
      * split; [auto|intros; discriminate].
      * split; [auto|intros; discriminate].
  - split; [auto|]; repeat split; intros; discriminate.
  - split; [auto|]; repeat split; intros; discriminate.
Qed.

(** The run of the witness: the prompt comes at once, the password goes out,
    and ["WebREPL connected"] comes 2.25 seconds into the second wait, later
    than the steady timeout of 1 second would allow. *)
Lemma authenticate_sequence_witness :
  let self := connection [] 0 in
  let env := [ {| now := 0; arrived := [lit "Password: "] |}; tick 0.125;
               tick 0.25; tick 1;
               {| now := 2.5; arrived := [lit "WebREPL connected"] |};
               tick 3 ] in
  result (authenticate self env) = Return PyNone /\
  sent (after (authenticate self env)) = [lit "secret" ++ CR] /\
  timeout (after (authenticate self env)) = 1%float /\
  unread (authenticate self env) = [tick 3] /\
  expired 5 0.25 {| now := 2.5; arrived := [lit "WebREPL connected"] |}
    = false /\
  expired 1 0.25 {| now := 2.5; arrived := [lit "WebREPL connected"] |}
    = true.
Proof.
  intros self env.
  destruct (authenticate_sequence self env) as (_ & _ & _ & _ & _ & Hok).
  destruct (Hok PyNone PyNone eq_refl eq_refl eq_refl)
    as (Hr & _ & Hu & Hs & Ht).
  split; [exact Hr|]; split; [exact Hs|]; split; [exact Ht|].
  split; [exact Hu|]; split; reflexivity.
Defined.

(** X14. A login that does not return leaves the timeout of the login, 5
    seconds: the steady timeout is only set at the very end. *)
Lemma authenticate_failure (self : ConWebsock) (env : list obs) :
  (forall v, result (authenticate self env) <> Return v) ->
  timeout (after (authenticate self env)) = 5%float.
Proof.
  pose proof (wait_for_string_keeps_timeout (lit "Password: ")
                (set_timeout 5 self) env) as T1.
  unfold authenticate, bind, assign_timeout, get_password, ws_send, ret.
  destruct (wait_for_string (lit "Password: ") (set_timeout 5 self) env)
    as [[[v1| |] s1] e1]; unfold result, after in *; cbn [fst snd] in *;
    try (intros _; exact T1).
  destruct (send_raises (ws s1) (password s1 ++ CR));
    [intros _; exact T1|].
  pose proof (wait_for_string_keeps_timeout (lit "WebREPL connected")
                (emit (WsSend (password s1 ++ CR)) s1) e1) as T2.
  destruct (wait_for_string (lit "WebREPL connected")
              (emit (WsSend (password s1 ++ CR)) s1) e1)
    as [[[v2| |] s3] e3]; unfold after in *; cbn [fst snd] in *;
    try (intros _; rewrite T2; exact T1).
  intros H; exfalso; exact (H PyNone eq_refl).
Qed.

(** Construction is the login on a fresh object: when it succeeds the
    timeout is the steady one. *)
Lemma init_timeout (ip password : str) (ws : WebSocketApp) (env : list obs)
    (v : pyval) :
  result (init ip password ws env) = Return v ->
  timeout (after (init ip password ws env)) = 1%float.
Proof.
  unfold init; intros H.
  destruct (authenticate_steps _ _ _ H) as (_ & _ & _ & _ & -> & _).
  reflexivity.
Qed.

(** ** What wait_for_string hands back *)

(** C6, as stated, fails: with ["ab"] and ["c:marker:de"] queued, the call
    for ["marker"] succeeds and returns [None]; the text after the marker,
    [":de"], is on the deque and is not the value of the call. *)
Lemma wait_for_string_remainder_not_returned :
  let r := wait_for_string (lit "marker")
             (connection [lit "ab"; lit "c:marker:de"] 1)
             [tick 0; tick 0; tick 0] in
  result r = Return PyNone /\
  fifo (after r) = [lit ":de"] /\
  result r <> Return (PyStr (lit ":de")).
Proof. repeat split; discriminate. Qed.

(** C6, amended. A successful [wait_for_string] returns [None]; the text
    that follows the first occurrence of the marker in the accumulated
    data is not returned but becomes the front chunk of the deque. *)
Theorem wait_for_string_returns_none (string : str) (self : ConWebsock)
    (env : list obs) (v : pyval) :
  result (wait_for_string string self env) = Return v ->
  v = PyNone /\
  exists t0 pre before rest,
    env = t0 :: pre ++ unread (wait_for_string string self env) /\
    concat (fst (drain (fifo self ++ arrived t0) pre)) =
      before ++ string ++ rest /\
    find string (before ++ string ++ rest) = Some (before, rest) /\
    hd_error (fifo (after (wait_for_string string self env))) = Some rest.
Proof.
  intros H; destruct (wait_for_string_success _ _ _ _ H)
    as (t0 & pre & earlier & before & rest & Henv & -> & _ & _ & _ & _ &
        F & Hbuf & Hf & _).
  split; [reflexivity|].
  exists t0, pre, before, rest; rewrite Hf; auto.
Qed.

Lemma wait_for_string_returns_none_witness :
  let r := wait_for_string (lit "marker")
             (connection [lit "ab"; lit "c:marker:de"] 1)
             [tick 0; tick 0; tick 0] in
  PyNone = PyNone /\
  exists t0 pre before rest,
    [tick 0; tick 0; tick 0] = t0 :: pre ++ unread r /\
    concat (fst (drain ([lit "ab"; lit "c:marker:de"] ++ arrived t0) pre)) =
      before ++ lit "marker" ++ rest /\
    find (lit "marker") (before ++ lit "marker" ++ rest) =
      Some (before, rest) /\
    hd_error (fifo (after r)) = Some rest.
Proof.
  exact (wait_for_string_returns_none (lit "marker")
           (connection [lit "ab"; lit "c:marker:de"] 1)
           [tick 0; tick 0; tick 0] PyNone eq_refl).
Defined.

(** C10. A successful [wait_for_string] leaves on the deque exactly one
    chunk more than the chunks it did not take: the text after the marker,
    put at the front, also when that text is empty.  So [inWaiting] right
    after it is one more than the number of chunks left, and is 1 when the
    call took every chunk there was. *)
Theorem wait_for_string_pushes_one_chunk (string : str) (self : ConWebsock)
    (env : list obs) (v : pyval) :
  result (wait_for_string string self env) = Return v ->
  exists t0 pre before rest,
    env = t0 :: pre ++ unread (wait_for_string string self env) /\
    concat (fst (drain (fifo self ++ arrived t0) pre)) =
      before ++ string ++ rest /\
    fst (drain (fifo self ++ arrived t0) pre) ++
    snd (drain (fifo self ++ arrived t0) pre) =
      (fifo self ++ arrived t0) ++ arrivals pre /\
    fifo (after (wait_for_string string self env)) =
      rest :: snd (drain (fifo self ++ arrived t0) pre) /\
    inWaiting (after (wait_for_string string self env)) =
      (1 + Z.of_nat (length (snd (drain (fifo self ++ arrived t0) pre))))%Z /\
    (snd (drain (fifo self ++ arrived t0) pre) = [] ->
     inWaiting (after (wait_for_string string self env)) = 1%Z).
Proof.
  intros H; destruct (wait_for_string_success _ _ _ _ H)
    as (t0 & pre & earlier & before & rest & Henv & _ & _ & _ & _ & _ &
        _ & Hbuf & Hf & _).
  exists t0, pre, before, rest.
  split; [exact Henv|]; split; [exact Hbuf|].
  split; [apply drain_conserves|]; split; [exact Hf|].
  unfold inWaiting; rewrite Hf; simpl length; split; [lia|].
  intros ->; reflexivity.
Qed.

Lemma wait_for_string_pushes_one_chunk_witness :
  let self := connection [lit "Password: "] 5 in
  let r := wait_for_string (lit "Password: ") self [tick 0; tick 0] in
  exists t0 pre before rest,
    [tick 0; tick 0] = t0 :: pre ++ unread r /\
    concat (fst (drain (fifo self ++ arrived t0) pre)) =
      before ++ lit "Password: " ++ rest /\
    fst (drain (fifo self ++ arrived t0) pre) ++
    snd (drain (fifo self ++ arrived t0) pre) =
      (fifo self ++ arrived t0) ++ arrivals pre /\
    fifo (after r) = rest :: snd (drain (fifo self ++ arrived t0) pre) /\
    inWaiting (after r) =
      (1 + Z.of_nat (length (snd (drain (fifo self ++ arrived t0) pre))))%Z /\
    (snd (drain (fifo self ++ arrived t0) pre) = [] ->
     inWaiting (after r) = 1%Z).
Proof.
  exact (wait_for_string_pushes_one_chunk (lit "Password: ")
           (connection [lit "Password: "] 5) [tick 0; tick 0] PyNone
           eq_refl).
Defined.

(** The run of that witness: the remainder is the empty text, and it is
    queued all the same. *)
Example empty_remainder_is_queued :
  let r := wait_for_string (lit "Password: ")
             (connection [lit "Password: "] 5) [tick 0; tick 0] in
  result r = Return PyNone /\ fifo (after r) = [[]] /\
  inWaiting (after r) = 1%Z.
Proof. repeat split. Qed.

(** ** read at the deadline *)

(** C4. When the first observation past the deadline comes before [read]
    has taken [size] chunks, [read] returns: its result is the UTF-8
    encoding of the chunks taken until then, joined, and is never a timeout
    error; the chunks not taken stay queued.  When nothing was queued and
    nothing arrived, the result is the empty byte string. *)
Theorem read_short_on_deadline (size : Z) (self : ConWebsock) (t0 : obs)
    (pre : list obs) (o : obs) (rest : list obs) :
  existsb (expired (timeout self) (now t0)) pre = false ->
  expired (timeout self) (now t0) o = true ->
  (Z.of_nat (length (fst (drain (fifo self ++ arrived t0) pre))) < size)%Z ->
  let taken := fst (drain (fifo self ++ arrived t0) pre) in
  let r := read size self (t0 :: pre ++ o :: rest) in
  result r = encode (join taken) /\
  (Forall text taken ->
   exists bs, encode_utf8 (join taken) = Some bs /\ result r = Return bs) /\
  (fifo self ++ arrived t0 = [] -> arrivals pre = [] ->
   result r = Return []) /\
  (forall msg, result r <> Raise (ConError msg)) /\
  fifo (after r) = snd (drain (fifo self ++ arrived t0) pre) ++ arrived o /\
  unread r = rest.
Proof.
  intros Hal Hx Hlt taken r.
  assert (Hr : r = (encode (join taken),
                    after r, rest) /\
               fifo (after r) =
                 snd (drain (fifo self ++ arrived t0) pre) ++ arrived o).
  { unfold r, read.
    destruct (read_loop_runs size (now t0) pre [] (deliver (arrived t0) self)
                (o :: rest)) as (self1 & E & F & T).
    - rewrite timeout_deliver; exact Hal.
    - intros p s Hp Hs; rewrite fifo_deliver; simpl.
      pose proof (drain_prefix_length (fifo self ++ arrived t0) p s) as L.
      rewrite <- Hp in L; lia.
    - rewrite fifo_deliver in E, F; rewrite timeout_deliver in T.
      rewrite app_nil_l in E; rewrite E, read_loop_deadline.
      + unfold after; simpl; rewrite fifo_deliver, F; auto.
      + exact Hlt.
      + rewrite T; exact Hx. }
  destruct Hr as [Hr Hf].
  assert (Hres : result r = encode (join taken)) by (rewrite Hr; reflexivity).
  split; [exact Hres|]; split; [|split; [|split; [|split]]].
  - intros Htext; destruct (encode_utf8_text _ (text_join _ Htext)) as [bs E].
    exists bs; split; [exact E|].
    rewrite Hres; unfold encode; rewrite E; reflexivity.
  - intros Hq Ha.
    pose proof (drain_conserves (fifo self ++ arrived t0) pre) as C.
    rewrite Hq, Ha in C; apply app_eq_nil in C; destruct C as [C _].
    rewrite Hres; unfold taken; rewrite Hq, C; reflexivity.
  - intros msg; rewrite Hres; unfold encode.
    destruct (encode_utf8 (join taken)); discriminate.
  - exact Hf.
  - rewrite Hr; reflexivity.
Qed.

Lemma read_short_on_deadline_witness :
  let env := tick 0 :: [tick 0.125; tick 0.25] ++ tick 0.5 :: [tick 1] in
  (let r := read 10 (connection [lit "ab"; [233%N]] 0.25) env in
   result r = Return (blit "ab" ++ [xc3; xa9]) /\
   fifo (after r) = [] /\ unread r = [tick 1])
  /\
  (let r := read 10 (connection [] 0.25) env in
   result r = Return [] /\ fifo (after r) = [] /\ unread r = [tick 1]).
Proof.
  intros env; split.
  - destruct (read_short_on_deadline 10 (connection [lit "ab"; [233%N]] 0.25)
                (tick 0) [tick 0.125; tick 0.25] (tick 0.5) [tick 1]
                eq_refl eq_refl eq_refl) as (Hr & _ & _ & _ & Hf & Hu).
    split; [exact Hr|]; split; [exact Hf|exact Hu].
  - destruct (read_short_on_deadline 10 (connection [] 0.25)
                (tick 0) [tick 0.125; tick 0.25] (tick 0.5) [tick 1]
                eq_refl eq_refl eq_refl) as (_ & _ & Hr & _ & Hf & Hu).
    split; [exact (Hr eq_refl eq_refl)|]; split; [exact Hf|exact Hu].
Defined.

(** ** The unit of read's size *)

(** C8. [read(n)], for n at least 1, counts chunks.  Whenever it returns,
    the chunks it has taken, which are what is missing at the front of the
    deque it leaves, are at most n, and it returns their joined text
    encoded, which has at least as many bytes as code points whatever n is:
    a chunk longer than n that is the one chunk taken comes back whole.
    And when n chunks are queued, n observations within the deadline make
    it return exactly those n chunks, without reading the clock once
    more. *)
Theorem read_counts_chunks (n : Z) (self : ConWebsock) :
  (1 <= n)%Z ->
  (forall env bs,
     result (read n self env) = Return bs ->
     exists consumed taken,
       env = consumed ++ unread (read n self env) /\
       taken ++ fifo (after (read n self env)) =
         fifo self ++ arrivals consumed /\
       encode_utf8 (join taken) = Some bs /\
       (Z.of_nat (length taken) <= n)%Z /\
       (length (join taken) <= length bs)%nat /\
       (forall chunk, taken = [chunk] ->
          encode_utf8 chunk = Some bs /\
          ((n < Z.of_nat (length chunk))%Z ->
           (n < Z.of_nat (length bs))%Z)))
  /\
  (forall t0 pre rest first more,
     fifo self ++ arrived t0 = first ++ more ->
     Z.of_nat (length first) = n ->
     length pre = length first ->
     existsb (expired (timeout self) (now t0)) pre = false ->
     let r := read n self (t0 :: pre ++ rest) in
     result r = encode (join first) /\
     fifo (after r) = more ++ arrivals pre /\
     unread r = rest).
Proof.
  intros Hn; split.
  - intros env bs H.
    destruct (read_returns _ _ _ _ H) as (t0 & pre & E & _ & _ & Hp & Hend).
    pose proof (drain_conserves (fifo self ++ arrived t0) pre) as C.
    assert (B : (Z.of_nat
                   (length (fst (drain (fifo self ++ arrived t0) pre)))
                 <= n)%Z).
    { clear -Hp Hn; induction pre as [|o p _] using rev_ind; [simpl; lia|].
      specialize (Hp p [o] eq_refl ltac:(discriminate)).
      pose proof (drain_snoc_length (fifo self ++ arrived t0) p o); lia. }
    assert (Hrest :
      (length (join (fst (drain (fifo self ++ arrived t0) pre)))
       <= length bs)%nat /\
      (forall chunk,
         fst (drain (fifo self ++ arrived t0) pre) = [chunk] ->
         encode_utf8 chunk = Some bs /\
         ((n < Z.of_nat (length chunk))%Z ->
          (n < Z.of_nat (length bs))%Z))).
    { split; [apply encode_utf8_length; exact E|].
      intros chunk Ht; rewrite Ht in E; unfold join in E; simpl in E.
      rewrite app_nil_r in E; split; [exact E|].
      pose proof (encode_utf8_length _ _ E); lia. }
    destruct Hend as [(Henv & Hf & _)|(o & Henv & _ & Hf & _)].
    + exists (t0 :: pre), (fst (drain (fifo self ++ arrived t0) pre)).
      split; [exact Henv|]; split.
      * rewrite Hf, C; unfold arrivals; simpl.
        rewrite <- app_assoc; reflexivity.
      * split; [exact E|]; split; [exact B|exact Hrest].
    + exists (t0 :: pre ++ [o]), (fst (drain (fifo self ++ arrived t0) pre)).
      split; [rewrite Henv at 1; simpl; rewrite <- app_assoc; reflexivity|].
      split.
      * rewrite Hf, app_assoc, C.
        change (arrivals (t0 :: pre ++ [o]))
          with (arrived t0 ++ arrivals (pre ++ [o])).
        rewrite arrivals_snoc, <- !app_assoc; reflexivity.
      * split; [exact E|]; split; [exact B|exact Hrest].
  - intros t0 pre rest first more Hq Hfirst Hlen Hal r.
    assert (D : drain (fifo self ++ arrived t0) pre =
                (first, more ++ arrivals pre)).
    { rewrite Hq; apply drain_queued; symmetry; exact Hlen. }
    assert (Hr : r = (encode (join first), after r, rest) /\
                 fifo (after r) = more ++ arrivals pre).
    { unfold r, read.
      destruct (read_loop_runs n (now t0) pre [] (deliver (arrived t0) self)
                  rest) as (self1 & E & F & T).
      - rewrite timeout_deliver; exact Hal.
      - intros p s Hp Hs; rewrite fifo_deliver; simpl.
        pose proof (drain_length (fifo self ++ arrived t0) p) as L.
        assert (length p < length pre)%nat.
        { rewrite Hp, length_app; destruct s; [contradiction|simpl; lia]. }
        lia.
      - rewrite fifo_deliver, D in E, F; simpl in E, F.
        rewrite E, read_loop_full by lia.
        unfold after; simpl; auto. }
    destruct Hr as [Hr Hf]; repeat split; [| exact Hf |];
      rewrite Hr; reflexivity.
Qed.

Lemma read_counts_chunks_witness :
  (let r := read 2 (connection [lit "hello"; lit "x"; lit "y"] 1)
              (tick 0 :: [tick 0; tick 0] ++ [tick 0]) in
   result r = Return (blit "hellox") /\
   fifo (after r) = [lit "y"] /\
   unread r = [tick 0])
  /\
  (exists consumed taken,
     [tick 0; tick 0; tick 2] =
       consumed ++
       unread (read 2 (connection [lit "hello"] 1) [tick 0; tick 0; tick 2])
     /\
     taken ++
     fifo (after (read 2 (connection [lit "hello"] 1)
                    [tick 0; tick 0; tick 2])) =
       [lit "hello"] ++ arrivals consumed /\
     encode_utf8 (join taken) = Some (blit "hello") /\
     (Z.of_nat (length taken) <= 2)%Z /\
     (length (join taken) <= length (blit "hello"))%nat /\
     (forall chunk, taken = [chunk] ->
        encode_utf8 chunk = Some (blit "hello") /\
        ((2 < Z.of_nat (length chunk))%Z ->
         (2 < Z.of_nat (length (blit "hello")))%Z))).
Proof.
  split.
  - apply (proj2 (read_counts_chunks 2
                    (connection [lit "hello"; lit "x"; lit "y"] 1)
                    ltac:(lia))
             (tick 0) [tick 0; tick 0] [tick 0]
             [lit "hello"; lit "x"] [lit "y"]); reflexivity.
  - apply (proj1 (read_counts_chunks 2 (connection [lit "hello"] 1)
                    ltac:(lia))
             [tick 0; tick 0; tick 2] (blit "hello")); reflexivity.
Defined.

(** ** Splitting at the marker *)

(** C2, as stated, fails in its example: with ["ab"] and ["c:marker:de"]
    queued, [wait_for_string("marker")] succeeds and leaves [":de"] queued,
    so that no [read(2)] after it returns [b"de"]. *)
Lemma marker_example_read_is_not_de :
  let r := wait_for_string (lit "marker")
             (connection [lit "ab"; lit "c:marker:de"] 1)
             [tick 0; tick 0; tick 0] in
  result r = Return PyNone /\
  fifo (after r) = [lit ":de"] /\
  result (read 2 (after r) [tick 0; tick 0; tick 2]) = Return (blit ":de") /\
  ~ exists env, result (read 2 (after r) env) = Return (blit "de").
Proof.
  intros r; do 3 (split; [reflexivity|]).
  intros (env & H).
  destruct (read_takes_front 2 (after r) env (blit "de") (lit ":de") []
              eq_refl H) as [E|(bx & tail & E & Hbs)].
  - discriminate E.
  - injection E as <-; discriminate Hbs.
Qed.

(** C2, amended. When the chunks at the front of the deque hold the marker,
    the last of them being the first to complete it, and the deadline does
    not pass while they are taken, [wait_for_string] takes exactly these
    chunks, cuts their joined text at the leftmost occurrence of the marker,
    puts the text after it back at the front of the deque, before the
    chunks not taken and the later arrivals, and returns; a [read] after it
    that returns anything returns that text first.  With ["ab"] and
    ["c:marker:de"] queued and the marker ["marker"], the text put back is
    [":de"]. *)
Theorem wait_for_string_splits_at_marker (string : str) (self : ConWebsock)
    (t0 : obs) (pre rest_env : list obs) (chunks : list str) (chunk : str)
    (more : list str) :
  fifo self ++ arrived t0 = chunks ++ chunk :: more ->
  contains string (concat chunks) = false ->
  contains string (concat chunks ++ chunk) = true ->
  length pre = S (length chunks) ->
  existsb (expired (timeout self) (now t0)) pre = false ->
  let r := wait_for_string string self (t0 :: pre ++ rest_env) in
  exists before rest,
    concat chunks ++ chunk = before ++ string ++ rest /\
    (forall b a, concat chunks ++ chunk = b ++ string ++ a ->
       (length before <= length b)%nat) /\
    result r = Return PyNone /\
    fifo (after r) = rest :: more ++ arrivals pre /\
    unread r = rest_env /\
    (forall size env bs,
       result (read size (after r) env) = Return bs ->
       bs = [] \/
       exists brest tail, encode_utf8 rest = Some brest /\ bs = brest ++ tail).
Proof.
  intros Hq Hno Hyes Hlen Hal r.
  assert (Hs : string <> []).
  { intros ->; unfold contains in Hno; simpl in Hno.
    destruct (concat chunks); discriminate. }
  destruct (exists_last (l := pre)) as (p & o & ->);
    [intros ->; discriminate|].
  rewrite length_app, Nat.add_comm in Hlen; injection Hlen as Hlen.
  rewrite existsb_app in Hal; apply orb_false_iff in Hal.
  destruct Hal as [Hal Ho]; simpl in Ho; rewrite orb_false_r in Ho.
  unfold contains in Hyes.
  destruct (find string (concat chunks ++ chunk)) as [[before rest]|] eqn:F;
    [|discriminate].
  assert (Hr : r = (Return PyNone, after r, rest_env) /\
               fifo (after r) = rest :: more ++ arrivals (p ++ [o])).
  { unfold r, wait_for_string; rewrite <- app_assoc.
    destruct (wait_loop_runs string (now t0) p [] (deliver (arrived t0) self)
                ([o] ++ rest_env)) as (self1 & E & Hf & T).
    - rewrite timeout_deliver; exact Hal.
    - rewrite fifo_deliver, Hq; apply examined_queued; auto.
    - rewrite fifo_deliver, Hq, drain_queued in E, Hf by auto.
      rewrite timeout_deliver in T; simpl fst in E; simpl snd in Hf.
      rewrite app_nil_l in E; rewrite E; simpl app.
      rewrite (wait_loop_found string (now t0) (concat chunks) self1 o
                 rest_env chunk (more ++ arrivals p ++ arrived o)
                 before rest).
      + unfold after; simpl; rewrite arrivals_snoc; auto.
      + rewrite T; exact Ho.
      + rewrite Hf; simpl; rewrite <- app_assoc; reflexivity.
      + exact Hs.
      + exact F. }
  destruct Hr as [Hr Hf].
  exists before, rest.
  split; [exact (find_splits _ _ _ _ F)|].
  split; [exact (find_leftmost _ _ _ _ F)|].
  split; [rewrite Hr; reflexivity|].
  split; [exact Hf|].
  split; [rewrite Hr; reflexivity|].
  intros size env bs H; exact (read_takes_front _ _ _ _ _ _ Hf H).
Qed.

Lemma wait_for_string_splits_at_marker_witness :
  let r := wait_for_string (lit "marker")
             (connection [lit "ab"; lit "c:marker:de"] 1)
             (tick 0 :: [tick 0; tick 0] ++ [tick 0]) in
  exists before rest,
    concat [lit "ab"] ++ lit "c:marker:de" = before ++ lit "marker" ++ rest /\
    (forall b a,
       concat [lit "ab"] ++ lit "c:marker:de" = b ++ lit "marker" ++ a ->
       (length before <= length b)%nat) /\
    result r = Return PyNone /\
    fifo (after r) = rest :: [] ++ arrivals [tick 0; tick 0] /\
    unread r = [tick 0] /\
    (forall size env bs,
       result (read size (after r) env) = Return bs ->
       bs = [] \/
       exists brest tail, encode_utf8 rest = Some brest /\ bs = brest ++ tail).
Proof.
  apply (wait_for_string_splits_at_marker (lit "marker")
           (connection [lit "ab"; lit "c:marker:de"] 1) (tick 0)
           [tick 0; tick 0] [tick 0] [lit "ab"] (lit "c:marker:de") []);
    reflexivity.
Defined.

(** ** Who raises on the deadline *)

Lemma timed_out_names_marker (string : str) :
  contains string (timed_out string) = true.
Proof.
  apply contains_substring.
  exists (lit "Timed out waiting for '"), (lit "'"); reflexivity.
Qed.

(** C3. [wait_for_string] raises [ConError] exactly when an observation
    past the deadline comes while every buffer examined until then lacks
    the marker; the message of the error is ["Timed out waiting for
    '<marker>'"], which contains the marker.  [read] never raises a
    [ConError]: on text, past the deadline or not, it raises nothing. *)
Theorem timeout_error_iff_deadline (string : str) (self : ConWebsock)
    (env : list obs) :
  (forall msg,
     result (wait_for_string string self env) = Raise (ConError msg) <->
     msg = timed_out string /\
     exists t0 pre o rest,
       env = t0 :: pre ++ o :: rest /\
       existsb (expired (timeout self) (now t0)) pre = false /\
       expired (timeout self) (now t0) o = true /\
       existsb (contains string)
         (examined [] (fifo self ++ arrived t0) pre) = false) /\
  contains string (timed_out string) = true /\
  (forall size msg, result (read size self env) <> Raise (ConError msg)) /\
  (forall size e,
     result (read size self env) = Raise e ->
     e = UnicodeEncodeError /\
     ~ Forall text (fifo self ++ arrivals env)).
Proof.
  split; [|split; [apply timed_out_names_marker|]].
  - intros msg; split.
    + destruct env as [|t0 env']; [discriminate|].
      unfold wait_for_string.
      destruct (wait_for_string_loop string (now t0) []
                  (deliver (arrived t0) self) env')
        as [[r self'] rest] eqn:Hrun.
      unfold result; simpl; intros ->.
      destruct (wait_loop_ends _ _ _ _ _ _ _ _ Hrun ltac:(discriminate))
        as (pre & o & -> & Hal & Hnf & _ & Hend).
      rewrite timeout_deliver in Hal, Hend; rewrite fifo_deliver in Hnf.
      destruct Hend as [(Ho & [= ->] & _)|(_ & c & q & buf & _ & _ & _ & Hr)].
      * split; [reflexivity|]; exists t0, pre, o, rest; auto.
      * destruct Hr as [(_ & [=] & _)|(_ & [=] & _)].
    + intros (-> & t0 & pre & o & rest & -> & Hal & Ho & Hnf).
      unfold wait_for_string.
      destruct (wait_loop_runs string (now t0) pre []
                  (deliver (arrived t0) self) (o :: rest))
        as (self1 & E & _ & T).
      * rewrite timeout_deliver; exact Hal.
      * rewrite fifo_deliver; exact Hnf.
      * rewrite timeout_deliver in T.
        rewrite E, wait_loop_deadline by (rewrite T; exact Ho).
        reflexivity.
  - assert (R : forall size e,
               result (read size self env) = Raise e ->
               e = UnicodeEncodeError /\
               ~ Forall text (fifo self ++ arrivals env)).
    { intros size e; destruct env as [|t0 env']; [discriminate|].
      unfold read.
      pose proof (read_loop_never_raises size (now t0) env' []
                    (deliver (arrived t0) self)) as N.
      destruct (read_loop size (now t0) [] (deliver (arrived t0) self) env')
        as [[[data| |] self'] rest] eqn:Hrun; unfold result in *; simpl in *.
      - unfold encode.
        destruct (encode_utf8 (join data)) as [b|] eqn:E; [discriminate|].
        intros [= <-]; split; [reflexivity|]; intros Htext.
        destruct (read_loop_returns _ _ _ _ _ _ _ _ Hrun)
          as (pre & -> & _ & _ & _ & Hend).
        rewrite fifo_deliver in E, Hend; simpl in E.
        assert (Hsub : Forall text
                         (fst (drain (fifo self ++ arrived t0) pre))).
        { pose proof (drain_conserves (fifo self ++ arrived t0) pre) as C.
          assert (Hall : Forall text ((fifo self ++ arrived t0) ++
                                      arrivals pre)).
          { destruct Hend as [(-> & _)|(o & -> & _)];
              unfold arrivals in Htext |- *; simpl in Htext;
              rewrite ?flat_map_app in Htext;
              repeat rewrite Forall_app in Htext; repeat rewrite Forall_app;
              tauto. }
          rewrite <- C in Hall; apply Forall_app in Hall; tauto. }
        destruct (encode_utf8_text _ (text_join _ Hsub)) as [b Eb].
        congruence.
      - intros _; exfalso; exact (N e0 eq_refl).
      - discriminate. }
    split; [|exact R].
    intros size msg H; destruct (R _ _ H) as [[=] _].
Qed.

Lemma timeout_error_iff_deadline_witness :
  let self := connection [lit "ab"] 0.25 in
  let env := [tick 0; tick 0.125; tick 0.25; tick 0.375; tick 1] in
  result (wait_for_string (lit "X") self env) =
    Raise (ConError (lit "Timed out waiting for 'X'")) /\
  (forall size msg, result (read size self env) <> Raise (ConError msg)).
Proof.
  intros self env.
  destruct (timeout_error_iff_deadline (lit "X") self env)
    as (Hiff & _ & Hread & _).
  split; [|exact Hread].
  apply (proj2 (Hiff (lit "Timed out waiting for 'X'"))).
  split; [reflexivity|].
  exists (tick 0), [tick 0.125; tick 0.25], (tick 0.375), [tick 1].
  repeat split.
Defined.

(** * Further behaviour of the two readers *)

(** ** read: sizes and the deadline *)

(** X1. [read(size)] with [size <= 0] does not enter its loop: it reads the
    clock once, takes nothing from the deque and returns the empty byte
    string, whatever is queued. *)
Theorem read_nonpositive_size (size : Z) (self : ConWebsock) (t0 : obs)
    (rest : list obs) :
  (size <= 0)%Z ->
  let r := read size self (t0 :: rest) in
  result r = Return [] /\
  fifo (after r) = fifo self ++ arrived t0 /\
  inWaiting (after r) = (inWaiting self + Z.of_nat (length (arrived t0)))%Z /\
  unread r = rest.
Proof.
  intros Hs r; unfold r, read.
  rewrite read_loop_full by (simpl; lia).
  unfold result, after, unread, inWaiting; simpl.
  rewrite fifo_deliver, length_app; repeat split; lia.
Qed.

Lemma read_nonpositive_size_witness :
  let r := read 0 (connection [lit "queued"] 1) (tick 0 :: [tick 0]) in
  result r = Return [] /\
  fifo (after r) = [lit "queued"] ++ [] /\
  inWaiting (after r) = (1 + 0)%Z /\
  unread r = [tick 0].
Proof.
  apply (read_nonpositive_size 0 (connection [lit "queued"] 1) (tick 0)
           [tick 0]); reflexivity.
Defined.

(** X2. [read(n)], for n at least 1, never returns early: when it returns it
    has either taken exactly n chunks, none of the observations it passed
    being past the deadline, or fewer than n and then the last reading of
    the clock it made was past the deadline. *)
Theorem read_full_or_expired (n : Z) (self : ConWebsock) (env : list obs)
    (bs : bytes) :
  (1 <= n)%Z ->
  result (read n self env) = Return bs ->
  exists t0 pre,
    let taken := fst (drain (fifo self ++ arrived t0) pre) in
    encode_utf8 (join taken) = Some bs /\
    existsb (expired (timeout self) (now t0)) pre = false /\
    ((Z.of_nat (length taken) = n /\
      env = t0 :: pre ++ unread (read n self env))
     \/
     ((Z.of_nat (length taken) < n)%Z /\
      exists o,
        env = t0 :: pre ++ o :: unread (read n self env) /\
        expired (timeout self) (now t0) o = true)).
Proof.
  intros Hn H.
  destruct (read_returns _ _ _ _ H) as (t0 & pre & E & Hal & _ & Hp & Hend).
  exists t0, pre; cbv zeta; split; [exact E|]; split; [exact Hal|].
  destruct Hend as [(Henv & _ & Hge)|(o & Henv & Ho & _ & Hlt)].
  - left; split; [|exact Henv].
    destruct (exists_last (l := pre)) as (p & o & ->).
    + intros ->; simpl in Hge; lia.
    + specialize (Hp p [o] eq_refl ltac:(discriminate)).
      pose proof (drain_snoc_length (fifo self ++ arrived t0) p o); lia.
  - right; split; [exact Hlt|]; exists o; auto.
Qed.

Lemma read_full_or_expired_witness :
  exists t0 pre,
    let taken := fst (drain ([lit "a"; lit "b"; lit "c"] ++ arrived t0) pre) in
    encode_utf8 (join taken) = Some (blit "ab") /\
    existsb (expired 1 (now t0)) pre = false /\
    ((Z.of_nat (length taken) = 2%Z /\
      [tick 0; tick 0; tick 0; tick 0] =
      t0 :: pre ++
      unread (read 2 (connection [lit "a"; lit "b"; lit "c"] 1)
                [tick 0; tick 0; tick 0; tick 0]))
     \/
     ((Z.of_nat (length taken) < 2)%Z /\
      exists o,
        [tick 0; tick 0; tick 0; tick 0] =
        t0 :: pre ++ o ::
        unread (read 2 (connection [lit "a"; lit "b"; lit "c"] 1)
                  [tick 0; tick 0; tick 0; tick 0]) /\
        expired 1 (now t0) o = true)).
Proof.
  apply (read_full_or_expired 2 (connection [lit "a"; lit "b"; lit "c"] 1)
           [tick 0; tick 0; tick 0; tick 0] (blit "ab")); [lia|reflexivity].
Defined.

Section Deadline.

Variables (tstart : float) (o : obs) (rest : list obs).

Lemma read_loop_ends_by_deadline (size : Z) (pre : list obs) :
  forall data self,
  expired (timeout self) tstart o = true ->
  result (read_loop size tstart data self (pre ++ o :: rest)) <> Starved /\
  (length rest <=
   length (unread (read_loop size tstart data self (pre ++ o :: rest))))%nat.
Proof.
  induction pre as [|o' pre IH]; intros data self Hx.
  - simpl app; destruct (Z.ltb_spec (Z.of_nat (length data)) size).
    + rewrite read_loop_deadline by assumption.
      unfold result, unread; simpl; split; [discriminate|lia].
    + rewrite read_loop_full by assumption.
      unfold result, unread; simpl; split; [discriminate|lia].
  - simpl; destruct (Z.of_nat (length data) <? size)%Z.
    2:{ unfold result, unread; simpl; split; [discriminate|].
        rewrite length_app; simpl; lia. }
    destruct (PrimFloat.ltb _ _).
    { unfold result, unread; simpl; split; [discriminate|].
      rewrite length_app; simpl; lia. }
    destruct (fifo (deliver (arrived o') self)); apply IH; simpl;
      rewrite timeout_deliver; exact Hx.
Qed.

Lemma wait_loop_ends_by_deadline (string : str) (pre : list obs) :
  forall data self,
  expired (timeout self) tstart o = true ->
  result (wait_for_string_loop string tstart data self (pre ++ o :: rest))
    <> Starved /\
  (length rest <=
   length (unread (wait_for_string_loop string tstart data self
                     (pre ++ o :: rest))))%nat.
Proof.
  induction pre as [|o' pre IH]; intros data self Hx.
  - simpl app; rewrite wait_loop_deadline by assumption.
    unfold result, unread; simpl; split; [discriminate|lia].
  - simpl; destruct (PrimFloat.ltb _ _).
    { unfold result, unread; simpl; split; [discriminate|].
      rewrite length_app; simpl; lia. }
    destruct (fifo (deliver (arrived o') self)) as [|chunk q].
    + apply IH; rewrite timeout_deliver; exact Hx.
    + destruct (contains string (data ++ chunk)) eqn:Hc.
      * destruct (split1_found _ _ Hc) as [(_ & ->)|(_ & b & a & _ & ->)];
          unfold result, unread; simpl; (split; [discriminate|]);
          rewrite length_app; simpl; lia.
      * apply IH; simpl; rewrite timeout_deliver; exact Hx.
Qed.

End Deadline.

(** X3. Neither reader outlives the deadline: on a script that has a
    reading of the clock past the deadline, [read] and [wait_for_string]
    both finish, returning or raising, and they read the clock no further
    than that reading. *)
Theorem readers_end_by_deadline (self : ConWebsock) (t0 : obs)
    (pre : list obs) (o : obs) (rest : list obs) :
  expired (timeout self) (now t0) o = true ->
  (forall size,
     let r := read size self (t0 :: pre ++ o :: rest) in
     result r <> Starved /\ (length rest <= length (unread r))%nat) /\
  (forall string,
     let r := wait_for_string string self (t0 :: pre ++ o :: rest) in
     result r <> Starved /\ (length rest <= length (unread r))%nat).
Proof.
  intros Hx; split.
  - intros size r; unfold r, read.
    destruct (read_loop_ends_by_deadline (now t0) o rest size pre []
                (deliver (arrived t0) self)) as [Hs Hl].
    { rewrite timeout_deliver; exact Hx. }
    destruct (read_loop size (now t0) [] (deliver (arrived t0) self)
                (pre ++ o :: rest)) as [[[data| |] s] e];
      unfold result, unread in *; simpl in *; try (split; [|exact Hl]).
    + unfold encode; destruct (encode_utf8 (join data)); discriminate.
    + discriminate.
    + contradiction.
  - intros string r; unfold r, wait_for_string.
    apply wait_loop_ends_by_deadline; rewrite timeout_deliver; exact Hx.
Qed.

Lemma readers_end_by_deadline_witness :
  (forall size,
     let r := read size (connection [] 1)
                (tick 0 :: [tick 0.5] ++ tick 2 :: [tick 3]) in
     result r <> Starved /\ (length [tick 3] <= length (unread r))%nat) /\
  (forall string,
     let r := wait_for_string string (connection [] 1)
                (tick 0 :: [tick 0.5] ++ tick 2 :: [tick 3]) in
     result r <> Starved /\ (length [tick 3] <= length (unread r))%nat).
Proof.
  apply (readers_end_by_deadline (connection [] 1) (tick 0) [tick 0.5]
           (tick 2) [tick 3]); reflexivity.
Defined.

(** ** wait_for_string: what it consumes *)

Section MarkerInStream.

Lemma strip_prefix_shorter (p s t r : str) :
  strip_prefix p (s ++ t) = Some r ->
  (length p <= length s)%nat ->
  exists r', strip_prefix p s = Some r'.
Proof.
  revert s; induction p as [|a p IH]; intros s; simpl; [eauto|].
  destruct s as [|b s]; simpl; [intros _ Hl; lia|].
  destruct (a =? b)%N; [|discriminate].
  intros H Hl; apply IH; [exact H|lia].
Qed.

(** The leftmost occurrence in a text is the leftmost occurrence in any
    longer text. *)
Lemma find_app_l (sep s t before rest : str) :
  find sep s = Some (before, rest) ->
  find sep (s ++ t) = Some (before, rest ++ t).
Proof.
  revert before rest; induction s as [|c s IH]; intros before rest.
  - simpl find at 1; destruct (strip_prefix sep []) as [r|] eqn:E;
      [|discriminate].
    intros [= <- <-]; apply strip_prefix_app in E.
    symmetry in E; apply app_eq_nil in E; destruct E as [-> ->].
    destruct t; reflexivity.
  - simpl find at 1; destruct (strip_prefix sep (c :: s)) as [r|] eqn:E.
    + intros [= <- <-]; apply strip_prefix_app in E.
      assert (E' : strip_prefix sep ((c :: s) ++ t) = Some (r ++ t)).
      { apply strip_prefix_app; rewrite E, app_assoc; reflexivity. }
      simpl in E' |- *; rewrite E'; reflexivity.
    + destruct (find sep s) as [[b a]|] eqn:F; [|discriminate].
      intros [= <- <-]; simpl.
      destruct (strip_prefix sep (c :: s ++ t)) as [r|] eqn:E'.
      * exfalso.
        destruct (strip_prefix_shorter sep (c :: s) t r E') as [r' Hr'];
          [|congruence].
        pose proof (find_splits _ _ _ _ F) as Hs.
        rewrite Hs; simpl; rewrite !length_app; lia.
      * rewrite (IH _ _ eq_refl); reflexivity.
Qed.

Lemma wait_loop_empty_marker (tstart : float) (data : str) (self : ConWebsock)
    (o : obs) (rest : list obs) (chunk : str) (q : list str) :
  expired (timeout self) tstart o = false ->
  fifo self ++ arrived o = chunk :: q ->
  wait_for_string_loop [] tstart data self (o :: rest) =
  (Raise (ValueError (lit "empty separator")),
   set_fifo q (deliver (arrived o) self), rest).
Proof.
  intros Hx Hq; simpl; rewrite timeout_deliver, fifo_deliver.
  fold (expired (timeout self) tstart o); rewrite Hx, Hq.
  unfold contains; destruct (data ++ chunk); reflexivity.
Qed.

End MarkerInStream.

(** X4. With the empty marker [wait_for_string] never succeeds: the first
    chunk it takes makes [split] raise [ValueError], and that chunk is gone
    from the deque. *)
Theorem wait_for_string_empty_marker (self : ConWebsock) :
  (forall env v, result (wait_for_string [] self env) <> Return v) /\
  (forall t0 o rest chunk q,
     expired (timeout self) (now t0) o = false ->
     (fifo self ++ arrived t0) ++ arrived o = chunk :: q ->
     let r := wait_for_string [] self (t0 :: o :: rest) in
     result r = Raise (ValueError (lit "empty separator")) /\
     fifo (after r) = q /\
     unread r = rest).
Proof.
  split.
  - intros env v H.
    destruct (wait_for_string_success _ _ _ _ H)
      as (? & ? & ? & ? & ? & _ & _ & Hs & _).
    exact (Hs eq_refl).
  - intros t0 o rest chunk q Hx Hq r; unfold r, wait_for_string.
    rewrite (wait_loop_empty_marker (now t0) [] (deliver (arrived t0) self)
               o rest chunk q).
    + unfold result, after, unread; simpl; auto.
    + rewrite timeout_deliver; exact Hx.
    + rewrite fifo_deliver; exact Hq.
Qed.

(** X5. A [wait_for_string] that times out does not put back what it took:
    the deque it leaves holds exactly the chunks it had not taken, those
    that arrived included, and the chunks taken are lost. *)
Theorem wait_for_string_timeout_drops_taken (string : str)
    (self : ConWebsock) (env : list obs) (msg : str) :
  result (wait_for_string string self env) = Raise (ConError msg) ->
  exists t0 pre o,
    env = t0 :: pre ++ o :: unread (wait_for_string string self env) /\
    fifo (after (wait_for_string string self env)) =
      snd (drain (fifo self ++ arrived t0) pre) ++ arrived o /\
    fst (drain (fifo self ++ arrived t0) pre) ++
    fifo (after (wait_for_string string self env)) =
      fifo self ++ arrivals (t0 :: pre ++ [o]) /\
    existsb (contains string)
      (examined [] (fifo self ++ arrived t0) pre) = false.
Proof.
  destruct env as [|t0 env]; [discriminate|].
  unfold wait_for_string.
  destruct (wait_for_string_loop string (now t0) []
              (deliver (arrived t0) self) env) as [[r self'] rest] eqn:Hrun.
  unfold result, after, unread; simpl; intros ->.
  destruct (wait_loop_ends _ _ _ _ _ _ _ _ Hrun ltac:(discriminate))
    as (pre & o & -> & _ & Hnf & _ & Hend).
  rewrite fifo_deliver in Hnf, Hend.
  destruct Hend as [(_ & _ & Hf)|(_ & c & q & buf & _ & _ & _ & Hr)].
  - exists t0, pre, o; rewrite Hf.
    split; [reflexivity|]; split; [reflexivity|]; split; [|exact Hnf].
    rewrite app_assoc, drain_conserves.
    unfold arrivals; simpl; rewrite flat_map_app; simpl.
    rewrite <- !app_assoc, app_nil_r; reflexivity.
  - destruct Hr as [(_ & [=] & _)|(_ & [=] & _)].
Qed.

Lemma wait_for_string_timeout_drops_taken_witness :
  let self := connection [lit "Pass"; lit "wor"] 0.25 in
  let env := [tick 0; tick 0.125; tick 0.25; tick 0.375; tick 1] in
  exists t0 pre o,
    env = t0 :: pre ++ o :: unread (wait_for_string (lit "word: ") self env) /\
    fifo (after (wait_for_string (lit "word: ") self env)) =
      snd (drain (fifo self ++ arrived t0) pre) ++ arrived o /\
    fst (drain (fifo self ++ arrived t0) pre) ++
    fifo (after (wait_for_string (lit "word: ") self env)) =
      fifo self ++ arrivals (t0 :: pre ++ [o]) /\
    existsb (contains (lit "word: "))
      (examined [] (fifo self ++ arrived t0) pre) = false.
Proof.
  exact (wait_for_string_timeout_drops_taken (lit "word: ")
           (connection [lit "Pass"; lit "wor"] 0.25)
           [tick 0; tick 0.125; tick 0.25; tick 0.375; tick 1]
           (timed_out (lit "word: ")) eq_refl).
Defined.

(** X6. A successful [wait_for_string] consumes the inbound text exactly up
    to the end of the first occurrence of the marker, wherever the chunk
    boundaries fall: the text left on the deque, joined, is what follows the
    leftmost occurrence of the marker in the joined text of everything that
    was queued or arrived while the call ran. *)
Theorem wait_for_string_consumes_up_to_marker (string : str)
    (self : ConWebsock) (env : list obs) (v : pyval) :
  result (wait_for_string string self env) = Return v ->
  exists consumed before rest,
    env = consumed ++ unread (wait_for_string string self env) /\
    find string (join (fifo self ++ arrivals consumed)) =
      Some (before, rest) /\
    join (fifo (after (wait_for_string string self env))) = rest.
Proof.
  intros H; destruct (wait_for_string_success _ _ _ _ H)
    as (t0 & pre & earlier & before & rest & Henv & _ & _ & _ & _ & _ &
        F & Hbuf & Hf & _).
  exists (t0 :: pre), before,
    (rest ++ concat (snd (drain (fifo self ++ arrived t0) pre))).
  split; [exact Henv|].
  pose proof (drain_conserves (fifo self ++ arrived t0) pre) as C.
  unfold join; rewrite Hf; simpl; split; [|reflexivity].
  unfold arrivals in C |- *; simpl.
  rewrite app_assoc, <- C, concat_app, Hbuf.
  apply find_app_l; exact F.
Qed.

Lemma wait_for_string_consumes_up_to_marker_witness :
  let self := connection [lit "xxPass"; lit "word: >"; lit ">> "] 5 in
  let env := [tick 0; tick 0; tick 0; tick 0] in
  exists consumed before rest,
    env = consumed ++ unread (wait_for_string (lit "Password: ") self env) /\
    find (lit "Password: ") (join (fifo self ++ arrivals consumed)) =
      Some (before, rest) /\
    join (fifo (after (wait_for_string (lit "Password: ") self env))) = rest.
Proof.
  exact (wait_for_string_consumes_up_to_marker (lit "Password: ")
           (connection [lit "xxPass"; lit "word: >"; lit ">> "] 5)
           [tick 0; tick 0; tick 0; tick 0] PyNone eq_refl).
Defined.

Lemma wait_for_string_empty_marker_witness :
  let r := wait_for_string [] (connection [lit "abc"] 1)
             (tick 0 :: tick 0 :: [tick 0]) in
  result r = Raise (ValueError (lit "empty separator")) /\
  fifo (after r) = [] /\
  unread r = [tick 0].
Proof.
  apply (proj2 (wait_for_string_empty_marker (connection [lit "abc"] 1))
           (tick 0) (tick 0) [tick 0] (lit "abc") []); reflexivity.
Defined.

(** ** The login: when the password leaves *)

Section LoginFailures.

(** The forward half of the deadline rule of [wait_for_string]. *)
Lemma wait_for_string_times_out (string : str) (self : ConWebsock)
    (t0 : obs) (pre : list obs) (o : obs) (rest : list obs) :
  existsb (expired (timeout self) (now t0)) pre = false ->
  expired (timeout self) (now t0) o = true ->
  existsb (contains string)
    (examined [] (fifo self ++ arrived t0) pre) = false ->
  exists self',
    wait_for_string string self (t0 :: pre ++ o :: rest) =
    (Raise (ConError (timed_out string)), self', rest).
Proof.
  intros Hal Ho Hnf; unfold wait_for_string.
  destruct (wait_loop_runs string (now t0) pre []
              (deliver (arrived t0) self) (o :: rest))
    as (self1 & E & _ & T).
  - rewrite timeout_deliver; exact Hal.
  - rewrite fifo_deliver; exact Hnf.
  - rewrite timeout_deliver in T.
    rewrite E, wait_loop_deadline by (rewrite T; exact Ho).
    eauto.
Qed.

End LoginFailures.

(** X7. The login hands the password to the transport at most once, as the
    password followed by a carriage return, and only after
    [wait_for_string("Password: ")] has returned, that is after the inbound
    text held the prompt; in every other run it sends nothing. *)
Theorem password_sent_only_after_prompt (self : ConWebsock)
    (env : list obs) :
  let r := authenticate self env in
  sent (after r) = sent self
  \/
  (sent (after r) = sent self ++ [password self ++ CR] /\
   exists t0 pre more,
     env = t0 :: pre ++ more /\
     existsb (expired 5 (now t0)) pre = false /\
     contains (lit "Password: ")
       (join (fst (drain (fifo self ++ arrived t0) pre))) = true).
Proof.
  cbv zeta.
  pose proof (wait_for_string_same_transport (lit "Password: ")
                (set_timeout 5 self) env) as (_ & Hp & _ & S1).
  pose proof (wait_for_string_success (lit "Password: ")
                (set_timeout 5 self) env) as V1.
  unfold authenticate, bind, assign_timeout, get_password, ws_send, ret.
  destruct (wait_for_string (lit "Password: ") (set_timeout 5 self) env)
    as [[r1 s1] e1].
  unfold result, after, unread in *; cbn [fst snd] in *.
  cbn [password set_timeout] in Hp.
  assert (S1' : sent s1 = sent self) by exact S1.
  destruct r1 as [v1| |]; [|left; exact S1'..].
  right.
  assert (Hprompt : exists t0 pre more,
             env = t0 :: pre ++ more /\
             existsb (expired 5 (now t0)) pre = false /\
             contains (lit "Password: ")
               (join (fst (drain (fifo self ++ arrived t0) pre))) = true).
  { destruct (V1 _ eq_refl)
      as (t0 & pre & _ & before & rest & Henv & _ & _ & Hal & _ & _ & _ &
          Hbuf & _).
    exists t0, pre, e1; split; [exact Henv|]; split; [exact Hal|].
    apply contains_substring; exists before, rest; exact Hbuf. }
  split; [|exact Hprompt].
  rewrite Hp.
  assert (S2 : sent (emit (WsSend (password self ++ CR)) s1) =
               sent self ++ [password self ++ CR]).
  { rewrite sent_emit_send, S1'; reflexivity. }
  destruct (send_raises (ws s1) (password self ++ CR)); [exact S2|].
  pose proof (wait_for_string_same_transport (lit "WebREPL connected")
                (emit (WsSend (password self ++ CR)) s1) e1)
    as (_ & _ & _ & S3).
  destruct (wait_for_string (lit "WebREPL connected")
              (emit (WsSend (password self ++ CR)) s1) e1)
    as [[[v2| |] s3] e3]; unfold after in *; cbn [fst snd] in *;
    rewrite <- S2; exact S3.
Qed.

(** X8. When the prompt does not come within the 5 seconds of the login,
    construction fails with the timeout error that names ["Password: "],
    and the password has not been sent. *)
Theorem init_times_out_without_prompt (ip password : str)
    (ws : WebSocketApp) (t0 : obs) (pre : list obs) (o : obs)
    (rest : list obs) :
  existsb (expired 5 (now t0)) pre = false ->
  expired 5 (now t0) o = true ->
  existsb (contains (lit "Password: "))
    (examined [] (arrived t0) pre) = false ->
  let r := init ip password ws (t0 :: pre ++ o :: rest) in
  result r = Raise (ConError (lit "Timed out waiting for 'Password: '")) /\
  sent (after r) = [] /\
  unread r = rest.
Proof.
  intros Hal Ho Hnf r.
  set (self := {| ip := ip; password := password; fifo := []; timeout := 0;
                  ws := ws; log := [] |}).
  pose proof (wait_for_string_same_transport (lit "Password: ")
                (set_timeout 5 self) (t0 :: pre ++ o :: rest))
    as (_ & _ & _ & S1).
  destruct (wait_for_string_times_out (lit "Password: ")
              (set_timeout 5 self) t0 pre o rest Hal Ho Hnf) as [s' E].
  unfold r, init; fold self.
  unfold authenticate, bind, assign_timeout; cbn beta iota.
  rewrite E in S1 |- *.
  unfold result, after, unread in *; cbn [fst snd] in *.
  split; [reflexivity|]; split; [exact S1|reflexivity].
Qed.

Lemma init_times_out_without_prompt_witness :
  let r := init (lit "192.168.4.1") (lit "secret") quiet
             ({| now := 0; arrived := [lit "Pass"] |} ::
              [tick 1; {| now := 4; arrived := [lit "word"] |}; tick 5] ++
              tick 6 :: [tick 7]) in
  result r = Raise (ConError (lit "Timed out waiting for 'Password: '")) /\
  sent (after r) = [] /\
  unread r = [tick 7].
Proof.
  apply (init_times_out_without_prompt (lit "192.168.4.1") (lit "secret")
           quiet {| now := 0; arrived := [lit "Pass"] |}
           [tick 1; {| now := 4; arrived := [lit "word"] |}; tick 5]
           (tick 6) [tick 7]); reflexivity.
Defined.

Lemma authenticate_failure_witness :
  timeout (after (authenticate (connection [] 1)
                    [tick 0; tick 1; tick 6; tick 7])) = 5%float.
Proof.
  apply (authenticate_failure (connection [] 1)
           [tick 0; tick 1; tick 6; tick 7]).
  intros v; discriminate.
Defined.

(** ** What leaves the deque alone *)

Section Frame.

Lemma same_queue_deliver (ms : list str) (s1 s2 : ConWebsock) :
  same_queue s1 s2 -> same_queue (deliver ms s1) (deliver ms s2).
Proof.
  intros [Hf Ht]; split.
  - rewrite !fifo_deliver, Hf; reflexivity.
  - rewrite !timeout_deliver; exact Ht.
Qed.

(** The loops look at the deque and at the timeout only. *)
Lemma read_loop_same_queue (size : Z) (tstart : float) (env : list obs) :
  forall data s1 s2,
  same_queue s1 s2 ->
  result (read_loop size tstart data s2 env) =
    result (read_loop size tstart data s1 env) /\
  same_queue (after (read_loop size tstart data s1 env))
    (after (read_loop size tstart data s2 env)) /\
  unread (read_loop size tstart data s2 env) =
    unread (read_loop size tstart data s1 env).
Proof.
  induction env as [|o env IH]; intros data s1 s2 Hs; simpl;
    destruct (Z.of_nat (length data) <? size)%Z;
    try (unfold result, after, unread; simpl; auto; fail).
  destruct (same_queue_deliver (arrived o) _ _ Hs) as [Hf Ht].
  rewrite Hf, Ht.
  destruct (PrimFloat.ltb _ _);
    [unfold result, after, unread, same_queue; simpl; auto|].
  destruct (fifo (deliver (arrived o) s1)) as [|chunk q] eqn:Hq; apply IH;
    split; simpl; auto; congruence.
Qed.

Lemma wait_loop_same_queue (string : str) (tstart : float) (env : list obs) :
  forall data s1 s2,
  same_queue s1 s2 ->
  result (wait_for_string_loop string tstart data s2 env) =
    result (wait_for_string_loop string tstart data s1 env) /\
  same_queue (after (wait_for_string_loop string tstart data s1 env))
    (after (wait_for_string_loop string tstart data s2 env)) /\
  unread (wait_for_string_loop string tstart data s2 env) =
    unread (wait_for_string_loop string tstart data s1 env).
Proof.
  induction env as [|o env IH]; intros data s1 s2 Hs; simpl;
    [unfold result, after, unread; simpl; auto|].
  destruct (same_queue_deliver (arrived o) _ _ Hs) as [Hf Ht].
  rewrite Hf, Ht.
  destruct (PrimFloat.ltb _ _);
    [unfold result, after, unread, same_queue; simpl; auto|].
  destruct (fifo (deliver (arrived o) s1)) as [|chunk q] eqn:Hq;
    [apply IH; split; simpl; auto; congruence|].
  destruct (contains string (data ++ chunk));
    [|apply IH; split; simpl; auto].
  destruct (split1 string (data ++ chunk)) as [[|x [|y [|z l]]]| |];
    unfold result, after, unread, same_queue; simpl; auto.
Qed.

Lemma read_keeps_timeout (size : Z) (self : ConWebsock) (env : list obs) :
  timeout (after (read size self env)) = timeout self.
Proof.
  destruct env as [|t0 env]; [reflexivity|]; unfold read.
  destruct (read_loop size (now t0) [] (deliver (arrived t0) self) env)
    as [[r self'] rest] eqn:Hrun.
  assert (T : timeout self' = timeout self).
  { clear -Hrun.
    assert (G : forall env data s r s' rest,
               read_loop size (now t0) data s env = (r, s', rest) ->
               timeout s' = timeout s).
    { clear; induction env as [|o env IH]; intros data s r s' rest; simpl;
        destruct (Z.of_nat (length data) <? size)%Z;
        try (intros [= _ <- _]; reflexivity).
      destruct (PrimFloat.ltb _ _);
        [intros [= _ <- _]; apply timeout_deliver|].
      destruct (fifo (deliver (arrived o) s)); intros H; apply IH in H;
        rewrite H; apply timeout_deliver. }
    rewrite (G _ _ _ _ _ _ Hrun); apply timeout_deliver. }
  destruct r; exact T.
Qed.

End Frame.

(** X9. [close], [__del__], [on_error], [on_close] and [write] leave the
    deque and the timeout as they are, so that [inWaiting], [read] and
    [wait_for_string] called after any of them give what they would have
    given without it: closing does not discard the text already received. *)
Theorem queue_survives_close_and_write (self self' : ConWebsock) :
  self' = snd (close self) \/ self' = snd (del self) \/
  self' = on_error self \/ self' = on_close self \/
  (exists data env0, self' = after (write data self env0)) ->
  inWaiting self' = inWaiting self /\
  (forall size env,
     result (read size self' env) = result (read size self env) /\
     fifo (after (read size self' env)) =
       fifo (after (read size self env))) /\
  (forall string env,
     result (wait_for_string string self' env) =
       result (wait_for_string string self env) /\
     fifo (after (wait_for_string string self' env)) =
       fifo (after (wait_for_string string self env))).
Proof.
  intros H.
  assert (Hs : same_queue self self').
  { destruct H as [->|[->|[->|[->|(data & env0 & ->)]]]];
      try (split; reflexivity).
    unfold write, bind, ws_send, ret.
    destruct (send_raises (ws self) data); split; reflexivity. }
  split; [unfold inWaiting; rewrite (proj1 Hs); reflexivity|]; split.
  - intros size [|t0 env]; [split; [reflexivity|exact (proj1 Hs)]|].
    unfold read.
    destruct (read_loop_same_queue size (now t0) env [] _ _
                (same_queue_deliver (arrived t0) _ _ Hs))
      as (Hr & [Hf _] & _).
    destruct (read_loop size (now t0) [] (deliver (arrived t0) self) env)
      as [[r1 a1] e1];
      destruct (read_loop size (now t0) [] (deliver (arrived t0) self') env)
      as [[r2 a2] e2]; unfold result, after in *; cbn [fst snd] in *.
    subst r2; destruct r1; auto.
  - intros string [|t0 env]; [split; [reflexivity|exact (proj1 Hs)]|].
    unfold wait_for_string.
    destruct (wait_loop_same_queue string (now t0) env [] _ _
                (same_queue_deliver (arrived t0) _ _ Hs))
      as (Hr & [Hf _] & _); auto.
Qed.

Lemma queue_survives_close_and_write_witness :
  let self := connection [lit "ab"; lit "c"] 1 in
  inWaiting (snd (close self)) = inWaiting self /\
  (forall size env,
     result (read size (snd (close self)) env) =
       result (read size self env) /\
     fifo (after (read size (snd (close self)) env)) =
       fifo (after (read size self env))) /\
  (forall string env,
     result (wait_for_string string (snd (close self)) env) =
       result (wait_for_string string self env) /\
     fifo (after (wait_for_string string (snd (close self)) env)) =
       fifo (after (wait_for_string string self env))).
Proof.
  apply (queue_survives_close_and_write (connection [lit "ab"; lit "c"] 1)
           (snd (close (connection [lit "ab"; lit "c"] 1)))).
  left; reflexivity.
Defined.

(** X10. Neither reader changes the timeout, however it ends: whatever
    [read] and [wait_for_string] return or raise, the timeout after the
    call is the timeout before it. *)
Theorem readers_keep_timeout (self : ConWebsock) (env : list obs) :
  (forall size, timeout (after (read size self env)) = timeout self) /\
  (forall string,
     timeout (after (wait_for_string string self env)) = timeout self).
Proof.
  split; intros; [apply read_keeps_timeout|].
  apply wait_for_string_keeps_timeout.
Qed.

(** X11. The count of queued chunks around a [read] that returns: it goes
    up by the chunks that arrived while the call ran and down by the chunks
    taken, which are at most [size], and none when [size] is not
    positive. *)
Theorem read_chunk_accounting (size : Z) (self : ConWebsock)
    (env : list obs) (bs : bytes) :
  result (read size self env) = Return bs ->
  exists consumed taken,
    env = consumed ++ unread (read size self env) /\
    encode_utf8 (join taken) = Some bs /\
    (Z.of_nat (length taken) <= Z.max 0 size)%Z /\
    inWaiting (after (read size self env)) =
      (inWaiting self + Z.of_nat (length (arrivals consumed))
       - Z.of_nat (length taken))%Z.
Proof.
  intros H.
  destruct (read_returns _ _ _ _ H) as (t0 & pre & E & _ & _ & Hp & Hend).
  pose proof (drain_conserves (fifo self ++ arrived t0) pre) as C.
  apply (f_equal (@length str)) in C; rewrite !length_app in C.
  assert (B : (Z.of_nat (length (fst (drain (fifo self ++ arrived t0) pre)))
               <= Z.max 0 size)%Z).
  { clear -Hp; induction pre as [|o p _] using rev_ind; [simpl; lia|].
    specialize (Hp p [o] eq_refl ltac:(discriminate)).
    pose proof (drain_snoc_length (fifo self ++ arrived t0) p o); lia. }
  destruct Hend as [(Henv & Hf & _)|(o & Henv & _ & Hf & _)].
  - exists (t0 :: pre), (fst (drain (fifo self ++ arrived t0) pre)).
    do 3 (split; [assumption|]).
    unfold inWaiting, arrivals in *; rewrite Hf; simpl.
    rewrite length_app; lia.
  - exists (t0 :: pre ++ [o]), (fst (drain (fifo self ++ arrived t0) pre)).
    split; [rewrite Henv at 1; simpl; rewrite <- app_assoc; reflexivity|].
    do 2 (split; [assumption|]).
    unfold inWaiting; rewrite Hf.
    change (arrivals (t0 :: pre ++ [o]))
      with (arrived t0 ++ arrivals (pre ++ [o])).
    rewrite arrivals_snoc, !length_app; lia.
Qed.

Lemma read_chunk_accounting_witness :
  let self := connection [lit "ab"; lit "c"; lit "d"] 1 in
  let env := [tick 0; {| now := 0; arrived := [lit "e"] |}; tick 0; tick 0] in
  exists consumed taken,
    env = consumed ++ unread (read 2 self env) /\
    encode_utf8 (join taken) = Some (blit "abc") /\
    (Z.of_nat (length taken) <= Z.max 0 2)%Z /\
    inWaiting (after (read 2 self env)) =
      (inWaiting self + Z.of_nat (length (arrivals consumed))
       - Z.of_nat (length taken))%Z.
Proof.
  exact (read_chunk_accounting 2 (connection [lit "ab"; lit "c"; lit "d"] 1)
           [tick 0; {| now := 0; arrived := [lit "e"] |}; tick 0; tick 0]
           (blit "abc") eq_refl).
Defined.

Lemma reads_ignore_chunking_witness :
  concat [blit "ab"; blit "cd"] = concat [blit "a"; blit "bcd"].
Proof.
  apply (reads_ignore_chunking [lit "ab"; lit "cd"] [lit "a"; lit "bcd"]
           [1%Z; 1%Z] [1%Z; 1%Z] (connection [] 1) (connection [] 1)
           [tick 0; tick 0; tick 0; tick 0] [tick 0; tick 0; tick 0; tick 0]);
    reflexivity.
Defined.

(** ** write *)

(** X12. [write(data)] hands [data] to the transport unchanged, once.  When
    the transport takes it, the value returned is the number of code points
    of [data], which is at most, and for text outside ASCII less than, the
    number of bytes of its UTF-8 encoding; when the transport raises,
    [write] raises the same exception and returns no count. *)
Theorem write_counts_code_points (data : str) (self : ConWebsock)
    (env : list obs) :
  let r := write data self env in
  sent (after r) = sent self ++ [data] /\
  unread r = env /\
  (send_raises (ws self) data = None ->
   result r = Return (Z.of_nat (length data)) /\
   forall b, encode_utf8 data = Some b ->
     (Z.of_nat (length data) <= Z.of_nat (length b))%Z) /\
  (forall e, send_raises (ws self) data = Some e -> result r = Raise e).
Proof.
  cbv zeta; unfold write, bind, ws_send, ret.
  destruct (send_raises (ws self) data) as [e|];
    unfold result, after, unread; cbn [fst snd]; rewrite sent_emit_send.
  - do 2 (split; [reflexivity|]); split; [discriminate|].
    intros e' [= ->]; reflexivity.
  - do 2 (split; [reflexivity|]); split; [|discriminate].
    intros _; split; [reflexivity|].
    intros b Hb; pose proof (encode_utf8_length _ _ Hb); lia.
Qed.

(** ** The login: a password that is not accepted *)

(** X13. When the prompt came and the password was sent, but
    ["WebREPL connected"] does not come within 5 seconds of the second
    wait, the login raises the timeout error that names
    ["WebREPL connected"]; the password has been sent once and the timeout
    is still 5 seconds. *)
Theorem authenticate_times_out_after_password (self : ConWebsock)
    (env : list obs) (v1 : pyval) (t1 : obs) (pre : list obs) (o : obs)
    (rest : list obs) :
  let w1 := wait_for_string (lit "Password: ") (set_timeout 5 self) env in
  result w1 = Return v1 ->
  send_raises (ws self) (password self ++ CR) = None ->
  unread w1 = t1 :: pre ++ o :: rest ->
  existsb (expired 5 (now t1)) pre = false ->
  expired 5 (now t1) o = true ->
  existsb (contains (lit "WebREPL connected"))
    (examined [] (fifo (after w1) ++ arrived t1) pre) = false ->
  let r := authenticate self env in
  result r =
    Raise (ConError (lit "Timed out waiting for 'WebREPL connected'")) /\
  sent (after r) = sent self ++ [password self ++ CR] /\
  timeout (after r) = 5%float /\
  unread r = rest.
Proof.
  intros w1 R1 Hsend Hun Hal Ho Hnf r.
  pose proof (wait_for_string_same_transport (lit "Password: ")
                (set_timeout 5 self) env) as (_ & Hp & Hw & S1).
  pose proof (wait_for_string_keeps_timeout (lit "Password: ")
                (set_timeout 5 self) env) as T1.
  fold w1 in Hp, Hw, S1, T1; cbn [password ws set_timeout timeout] in *.
  assert (S1' : sent (after w1) = sent self) by exact S1.
  set (s2 := emit (WsSend (password self ++ CR)) (after w1)).
  assert (T2 : timeout s2 = 5%float) by exact T1.
  destruct (wait_for_string_times_out (lit "WebREPL connected") s2 t1 pre o
              rest) as [s' E].
  { rewrite T2; exact Hal. }
  { rewrite T2; exact Ho. }
  { exact Hnf. }
  pose proof (wait_for_string_same_transport (lit "WebREPL connected") s2
                (t1 :: pre ++ o :: rest)) as (_ & _ & _ & S2).
  pose proof (wait_for_string_keeps_timeout (lit "WebREPL connected") s2
                (t1 :: pre ++ o :: rest)) as T3.
  rewrite E in S2, T3; unfold after in S2, T3; cbn [fst snd] in S2, T3.
  assert (Hsent : sent s' = sent self ++ [password self ++ CR]).
  { rewrite S2; unfold s2; rewrite sent_emit_send, S1'; reflexivity. }
  assert (Htime : timeout s' = 5%float) by (rewrite T3; exact T2).
  unfold r, authenticate, bind, assign_timeout, get_password, ws_send, ret.
  fold w1; revert R1 Hun Hp Hw E; unfold s2; clear s2 T2 S2 T3 S1 S1' T1 Hnf.
  destruct w1 as [[r1 s1] e1]; unfold result, after, unread;
    cbn [fst snd]; intros -> -> Hp Hw E.
  rewrite Hp, Hw, Hsend, E; cbn [fst snd].
  split; [reflexivity|]; auto.
Qed.

Lemma authenticate_times_out_after_password_witness :
  let env := [ {| now := 0; arrived := [lit "Password: "] |}; tick 0.125;
               {| now := 0.25; arrived := [lit "Access denied"] |};
               tick 1; tick 6; tick 7 ] in
  let r := authenticate (connection [] 0) env in
  result r =
    Raise (ConError (lit "Timed out waiting for 'WebREPL connected'")) /\
  sent (after r) = sent (connection [] 0) ++ [lit "secret" ++ CR] /\
  timeout (after r) = 5%float /\
  unread r = [tick 7].
Proof.
  apply (authenticate_times_out_after_password (connection [] 0)
           [ {| now := 0; arrived := [lit "Password: "] |}; tick 0.125;
             {| now := 0.25; arrived := [lit "Access denied"] |};
             tick 1; tick 6; tick 7 ]
           PyNone {| now := 0.25; arrived := [lit "Access denied"] |}
           [tick 1] (tick 6) [tick 7]); reflexivity.
Defined.

(** ** The deadline test in binary64 *)

(** The test is the source's, with the source's rounding.  With a timeout
    of 1.0 and the clock reading 0.1 at the start, a reading of 1.1 is not
    past the deadline, since 1.1 - 0.1 rounds to 1.0 and 1.0 - 1.0 is not
    negative; likewise 5.2 after 0.2 with a timeout of 5.0.  So a chunk
    arriving with that reading is still read. *)
Example deadline_test_rounds :
  expired 1 0x1.999999999999ap-4 (tick 0x1.199999999999ap+0) = false /\
  expired 5 0x1.999999999999ap-3 (tick 0x1.4cccccccccccdp+2) = false /\
  result (read 1 (connection [] 1)
            [tick 0x1.999999999999ap-4;
             {| now := 0x1.199999999999ap+0; arrived := [lit "late"] |}])
    = Return (blit "late") /\
  result (wait_for_string (lit "X") (connection [lit "aXb"] 1)
            [tick 0x1.999999999999ap-4; tick 0x1.199999999999ap+0])
    = Return PyNone.
Proof. repeat split. Qed.
